(** * Area-weighted aggregation of [cs_ish] onto presentation units

    A shallow embedding of [scripts/aggregate_presentation - Copia.py]:
    the aggregation core of [aggregate_presentation_gpkg] (lines 178-235),
    its helper [_weighted_median], the GeoPackage writer
    [_safe_write_layer_to_gpkg] and the driver with its file effects.

    Modelling choices:
    - numbers are exact rationals [Q]; a pandas cell is [option Q] with
      [None] standing for NaN.  Division is [Qdiv] (so [x / 0 = 0]);
    - a GeoDataFrame is a list of column names and a list of rows; a row
      carries an abstract geometry ([G]) and an association list from
      column names to cells.  A DataFrame without geometry (the result of
      a group-by) is a [table];
    - geometry enters only through the planar area [area : G -> Q] (m², in
      the working projection) and the overlay primitive; CRS transforms are
      the identity of the model. *)

From Stdlib Require Import QArith List String Ascii Bool Lia Permutation
  SetoidList Sorting Arith ZArith Qround Lqa DecimalString.
Import ListNotations.

Local Open Scope string_scope.
Local Open Scope list_scope.

(** ** Cells and rows *)

Definition cell := option Q.

(** Key equality used by pandas [merge] and [groupby] on the id column:
    numeric equality, and NaN keys match NaN keys in a merge. *)
Definition cell_eqb (a b : cell) : bool :=
  match a, b with
  | Some x, Some y => Qeq_bool x y
  | None, None => true
  | _, _ => false
  end.

Fixpoint assoc (c : string) (xs : list (string * cell)) : option cell :=
  match xs with
  | [] => None
  | (c', v) :: t => if String.eqb c c' then Some v else assoc c t
  end.

(** [row[c]]; a missing column reads as NaN. *)
Definition get (xs : list (string * cell)) (c : string) : cell :=
  match assoc c xs with Some v => v | None => None end.

(** [row[c] = v]: overwrite the column or add it at the end. *)
Fixpoint put (c : string) (v : cell) (xs : list (string * cell))
  : list (string * cell) :=
  match xs with
  | [] => [(c, v)]
  | (c', v') :: t => if String.eqb c c' then (c, v) :: t else (c', v') :: put c v t
  end.

Definition has_col (cols : list string) (c : string) : bool :=
  existsb (String.eqb c) cols.

Definition trow := list (string * cell).

(** A DataFrame without geometry (the result of [groupby(...).agg]). *)
Record table := mkTable { tcols : list string; trows : list trow }.

Definition SUPPORTED_AGGS : list string := ["mean"; "median"; "max"; "min"].

(** [f"cs_ish_{a}"] *)
Definition agg_col (a : string) : string := String.append "cs_ish_" a.

Definition mem (a : string) (l : list string) : bool := existsb (String.eqb a) l.

(** ** Sorting and grouping keys (pandas [groupby] sorts its keys) *)

Fixpoint insert_Q (x : Q) (l : list Q) : list Q :=
  match l with
  | [] => [x]
  | y :: t => if Qle_bool x y then x :: y :: t else y :: insert_Q x t
  end.

Definition sort_Q (l : list Q) : list Q := fold_right insert_Q [] l.

Fixpoint dedup_Q (l : list Q) : list Q :=
  match l with
  | [] => []
  | x :: t => if existsb (Qeq_bool x) t then dedup_Q t else x :: dedup_Q t
  end.

(** ** Cell arithmetic with NaN propagation *)

Definition fillna0 (c : cell) : cell := match c with None => Some 0 | s => s end.

Definition cmul (a b : cell) : cell :=
  match a, b with Some x, Some y => Some (x * y) | _, _ => None end.

Definition cdiv (a b : cell) : cell :=
  match a, b with Some x, Some y => Some (x / y) | _, _ => None end.

(** [Series.sum()] skips NaN (an all-NaN group sums to 0). *)
Definition sum_skipna (cs : list cell) : cell :=
  Some (fold_right (fun c acc => match c with Some x => x + acc | None => acc end) 0 cs).

(** [Series.max()] / [Series.min()] skip NaN; all-NaN gives NaN. *)
Definition max_skipna (cs : list cell) : cell :=
  fold_left (fun acc c =>
    match acc, c with
    | None, _ => c
    | Some a, Some x => Some (if Qle_bool a x then x else a)
    | Some a, None => Some a
    end) cs None.

Definition min_skipna (cs : list cell) : cell :=
  fold_left (fun acc c =>
    match acc, c with
    | None, _ => c
    | Some a, Some x => Some (if Qle_bool x a then x else a)
    | Some a, None => Some a
    end) cs None.

(** ** [_weighted_median] (lines 45-62) *)

Fixpoint insert_pair (p : Q * Q) (l : list (Q * Q)) : list (Q * Q) :=
  match l with
  | [] => [p]
  | q :: t => if Qle_bool (fst p) (fst q) then p :: q :: t else q :: insert_pair p t
  end.

(** [np.argsort] then indexing; the sort is by value.  [argsort] is not
    stable, but the value returned below does not depend on the order
    among equal values. *)
Definition sort_pairs (l : list (Q * Q)) : list (Q * Q) := fold_right insert_pair [] l.

Definition sumQ (l : list Q) : Q := fold_right Qplus 0 l.

(** [np.cumsum] *)
Fixpoint cumsum_from (acc : Q) (l : list Q) : list Q :=
  match l with
  | [] => []
  | x :: t => (acc + x) :: cumsum_from (acc + x) t
  end.

(** [np.searchsorted(a, v)] with [side='left']: the first index [i]
    with [v <= a[i]], or [len a]. *)
Fixpoint searchsorted (a : list Q) (v : Q) : nat :=
  match a with
  | [] => 0
  | x :: t => if Qle_bool v x then 0 else S (searchsorted t v)
  end.

(** [np.nanmedian] of a list without NaN: the middle element, or the mean
    of the two middle elements. *)
Definition nanmedian (vs : list Q) : Q :=
  let s := sort_Q vs in
  let n := length s in
  if Nat.odd n then nth (Nat.div n 2) s 0
  else (nth (Nat.sub (Nat.div n 2) 1) s 0 + nth (Nat.div n 2) s 0) / 2.

Definition _weighted_median (values : list cell) (weights : list Q) : cell :=
  match values with
  | [] => None
  | _ =>
    let kept := flat_map (fun p => match fst p with Some v => [(v, snd p)] | None => [] end)
                         (combine values weights) in
    match kept with
    | [] => None
    | _ =>
      let vals := map fst kept in
      let ws := map snd kept in
      if Qeq_bool (sumQ ws) 0 then Some (nanmedian vals)
      else
        let srt := sort_pairs kept in
        let values_sorted := map fst srt in
        let weights_sorted := map snd srt in
        let cs := cumsum_from 0 weights_sorted in
        let cutoff := sumQ weights_sorted / 2 in
        let idx := searchsorted cs cutoff in
        Some (nth (Nat.min idx (Nat.sub (length values_sorted) 1)) values_sorted 0)
    end
  end.

(** The non-NaN [(value, weight)] pairs kept by lines 48-50. *)
Definition kept_pairs (values : list cell) (weights : list Q) : list (Q * Q) :=
  flat_map (fun p => match fst p with Some v => [(v, snd p)] | None => [] end)
           (combine values weights).

(** Total weight of the kept pairs whose value satisfies [P]. *)
Definition weight_where (P : Q -> bool) (values : list cell) (weights : list Q) : Q :=
  sumQ (map snd (filter (fun p => P (fst p)) (kept_pairs values weights))).

Definition total_weight (values : list cell) (weights : list Q) : Q :=
  sumQ (map snd (kept_pairs values weights)).


(** ** GeoDataFrames and the aggregation core *)

Section Core.

Variable G : Type.
(** Planar area (m²) of a geometry in the working projection. *)
Variable area : G -> Q.

Record row := mkRow { geom : G; attrs : list (string * cell) }.

Record frame := mkFrame { fcols : list string; frows : list row }.

(** [gdf[c] = g(row)] for every row. *)
Definition set_col (c : string) (g : row -> cell) (f : frame) : frame :=
  mkFrame (if has_col (fcols f) c then fcols f else fcols f ++ [c])
          (map (fun r => mkRow (geom r) (put c (g r) (attrs r))) (frows f)).

(** [gdf[cols]] as a plain table (geometry dropped). *)
Definition to_table (cols : list string) (f : frame) : table :=
  mkTable cols (map (fun r => map (fun c => (c, get (attrs r) c)) cols) (frows f)).

(** Column renaming of [DataFrame.merge] with the default suffixes
    [("_x", "_y")]: a non-key column present on both sides is renamed. *)
Definition overlaps (k : string) (lcols rcols : list string) (c : string) : bool :=
  negb (String.eqb c k) && has_col lcols c && has_col rcols c.

Definition lname (k : string) (lcols rcols : list string) (c : string) : string :=
  if overlaps k lcols rcols c then String.append c "_x" else c.

Definition rname (k : string) (lcols rcols : list string) (c : string) : string :=
  if overlaps k lcols rcols c then String.append c "_y" else c.

Definition merge_row (k : string) (lcols : list string) (r : table) (lr : row) : list row :=
  let rcols := filter (fun c => negb (String.eqb c k)) (tcols r) in
  let la := map (fun p => (lname k lcols (tcols r) (fst p), snd p)) (attrs lr) in
  match filter (fun rr => cell_eqb (get (attrs lr) k) (get rr k)) (trows r) with
  | [] => [mkRow (geom lr) (la ++ map (fun c => (rname k lcols (tcols r) c, None)) rcols)]
  | ms => map (fun rr => mkRow (geom lr)
                  (la ++ map (fun c => (rname k lcols (tcols r) c, get rr c)) rcols)) ms
  end.

(** [l.merge(r, on=k, how="left")]: left rows in order, one output row per
    matching right row, NaN-filled when there is none. *)
Definition merge_left (k : string) (l : frame) (r : table) : frame :=
  let rcols := filter (fun c => negb (String.eqb c k)) (tcols r) in
  mkFrame (map (lname k (fcols l) (tcols r)) (fcols l)
             ++ map (rname k (fcols l) (tcols r)) rcols)
          (flat_map (merge_row k (fcols l) r) (frows l)).

(** [groupby(k)]: the sorted distinct non-NaN keys, and the rows of a key. *)
Definition group_keys (k : string) (rs : list row) : list Q :=
  sort_Q (dedup_Q (flat_map (fun r => match get (attrs r) k with
                                      | Some q => [q] | None => [] end) rs)).

Definition group_of (k : string) (q : Q) (rs : list row) : list row :=
  filter (fun r => cell_eqb (get (attrs r) k) (Some q)) rs.

(** One record [{k: key, n: f(group)}] per group. *)
Definition group_records (k n : string) (f : list row -> cell) (rs : list row) : list trow :=
  map (fun q => [(k, Some q); (n, f (group_of k q rs))]) (group_keys k rs).

Definition group_table (k n : string) (f : list row -> cell) (rs : list row) : table :=
  mkTable [k; n] (group_records k n f rs).

Definition column (c : string) (rs : list row) : list cell := map (fun r => get (attrs r) c) rs.

(** [grp["area_inter_km2"].to_numpy(dtype=float)]: the column is set at
    line 195 from the geometry area and is never NaN. *)
Definition weights_of (rs : list row) : list Q :=
  map (fun r => match get (attrs r) "area_inter_km2" with Some w => w | None => 0 end) rs.

Definition km2 (g : G) : Q := area g / 1000000.

(** Lines 202-206 (mean): adds [weighted] to [inter] and merges the sums. *)
Definition mean_step (id_field : string) (aggs : list string) (inter result : frame)
  : frame * frame :=
  if mem "mean" aggs then
    let inter' := set_col "weighted"
        (fun r => cmul (fillna0 (get (attrs r) "cs_ish"))
                       (cdiv (get (attrs r) "area_inter_km2")
                             (get (attrs r) "area_apresent_km2"))) inter in
    let agg_mean := group_table id_field "cs_ish_mean"
        (fun grp => sum_skipna (column "weighted" grp)) (frows inter') in
    (inter', merge_left id_field result agg_mean)
  else (inter, result).

(** Lines 208-219 (median). *)
Definition median_step (id_field : string) (aggs : list string) (inter result : frame) : frame :=
  if mem "median" aggs then
    let records := group_records id_field "cs_ish_median"
        (fun grp => _weighted_median (column "cs_ish" grp) (weights_of grp)) (frows inter) in
    match records with
    | [] => set_col "cs_ish_median" (fun _ => None) result
    | _ => merge_left id_field result (mkTable [id_field; "cs_ish_median"] records)
    end
  else result.

(** Lines 221-224 (max). *)
Definition max_step (id_field : string) (aggs : list string) (inter result : frame) : frame :=
  if mem "max" aggs then
    merge_left id_field result (group_table id_field "cs_ish_max"
        (fun grp => max_skipna (column "cs_ish" grp)) (frows inter))
  else result.

(** Lines 226-229 (min). *)
Definition min_step (id_field : string) (aggs : list string) (inter result : frame) : frame :=
  if mem "min" aggs then
    merge_left id_field result (group_table id_field "cs_ish_min"
        (fun grp => min_skipna (column "cs_ish" grp)) (frows inter))
  else result.

(** Lines 181-184: every requested column set to NaN. *)
Definition init_columns (aggs : list string) (f : frame) : frame :=
  fold_left (fun f a => set_col (agg_col a) (fun _ => None) f) aggs f.

(** Lines 231-235: a requested column still missing is added as NaN. *)
Definition ensure_columns (aggs : list string) (f : frame) : frame :=
  fold_left (fun f a =>
      if has_col (fcols f) (agg_col a) then f else set_col (agg_col a) (fun _ => None) f)
    aggs f.

(** Lines 178-235 of [aggregate_presentation_gpkg]: [pres_p] is the
    projected presentation layer (with [area_apresent_km2]), [inter0] the
    overlay output; the result is [result_pres]. *)
Definition aggregate_core (id_field : string) (aggs : list string)
    (pres_p inter0 : frame) : frame :=
  let result0 := init_columns aggs pres_p in
  match frows inter0 with
  | [] => result0
  | _ =>
    let inter1 := set_col "area_inter_km2" (fun r => Some (km2 (geom r))) inter0 in
    let inter2 :=
      if has_col (fcols inter1) "area_apresent_km2" then inter1
      else merge_left id_field inter1 (to_table [id_field; "area_apresent_km2"] pres_p) in
    let '(inter3, result1) := mean_step id_field aggs inter2 result0 in
    let result2 := median_step id_field aggs inter3 result1 in
    let result3 := max_step id_field aggs inter3 result2 in
    let result4 := min_step id_field aggs inter3 result3 in
    ensure_columns aggs result4
  end.

End Core.

Arguments mkRow {G}.
Arguments mkFrame {G}.
Arguments geom {G}.
Arguments attrs {G}.
Arguments fcols {G}.
Arguments frows {G}.

(** ** Keyed lists (files of a store, layers of a GeoPackage) *)

Fixpoint lookup {V : Type} (k : string) (xs : list (string * V)) : option V :=
  match xs with
  | [] => None
  | (k', v) :: t => if String.eqb k k' then Some v else lookup k t
  end.

Fixpoint update {V : Type} (k : string) (v : V) (xs : list (string * V)) : list (string * V) :=
  match xs with
  | [] => [(k, v)]
  | (k', v') :: t => if String.eqb k k' then (k, v) :: t else (k', v') :: update k v t
  end.

Fixpoint remove_key {V : Type} (k : string) (xs : list (string * V)) : list (string * V) :=
  match xs with
  | [] => []
  | (k', v') :: t => if String.eqb k k' then remove_key k t else (k', v') :: remove_key k t
  end.

(** ** [os.path.basename] and the root of [os.path.splitext] *)

Fixpoint take_until_slash (rc : list ascii) : list ascii :=
  match rc with
  | [] => []
  | c :: t => if Ascii.eqb c "/"%char then [] else c :: take_until_slash t
  end.

Definition basename (p : string) : string :=
  string_of_list_ascii (rev (take_until_slash (rev (list_ascii_of_string p)))).

Fixpoint drop_to_dot (rc : list ascii) : option (list ascii) :=
  match rc with
  | [] => None
  | c :: t => if Ascii.eqb c "."%char then Some t else drop_to_dot t
  end.

(** The extension starts at the last dot, unless only dots precede it. *)
Definition splitext_root (b : string) : string :=
  match drop_to_dot (rev (list_ascii_of_string b)) with
  | Some rest =>
      if existsb (fun c => negb (Ascii.eqb c "."%char)) rest
      then string_of_list_ascii (rev rest) else b
  | None => b
  end.

(** ** [--agg] normalisation of [cli] (lines 263-265) *)

(** [str.isspace] on a code point below 256. *)
Definition is_space (c : ascii) : bool :=
  let n := nat_of_ascii c in
  (Nat.leb 9 n && Nat.leb n 13) || (Nat.leb 28 n && Nat.leb n 32)
  || Nat.eqb n 133 || Nat.eqb n 160.

Fixpoint lstrip (s : string) : string :=
  match s with
  | EmptyString => EmptyString
  | String c r => if is_space c then lstrip r else s
  end.

Fixpoint rstrip (s : string) : string :=
  match s with
  | EmptyString => EmptyString
  | String c r =>
      let r' := rstrip r in
      if is_space c && String.eqb r' EmptyString then EmptyString else String c r'
  end.

(** [s.strip()] *)
Definition strip (s : string) : string := rstrip (lstrip s).

(** [c in s] for a one-character [c]. *)
Fixpoint has_char (c : ascii) (s : string) : bool :=
  match s with
  | EmptyString => false
  | String x r => Ascii.eqb x c || has_char c r
  end.

(** [s.split(c)]: one piece more than there are [c] in [s]. *)
Fixpoint split_on (c : ascii) (s : string) : list string :=
  match s with
  | EmptyString => [EmptyString]
  | String x r =>
      let rest := split_on c r in
      if Ascii.eqb x c then EmptyString :: rest
      else match rest with
           | h :: t => String x h :: t
           | [] => [String x EmptyString]
           end
  end.

(** [args.agg] after lines 264-265. *)
Definition cli_aggs (agg : list string) : list string :=
  match agg with
  | [a] =>
      if has_char ","%char a
      then flat_map (fun s => if String.eqb (strip s) EmptyString then [] else [strip s])
             (split_on ","%char a)
      else agg
  | _ => agg
  end.

(** [sep.join(xs)] *)
Fixpoint join_with (sep : string) (xs : list string) : string :=
  match xs with
  | [] => EmptyString
  | [x] => x
  | x :: t => String.append x (String.append sep (join_with sep t))
  end.

(** ** [_get_local_utm_crs] (lines 31-43) *)

(** [int(x)]: truncation toward zero. *)
Definition py_int (x : Q) : Z :=
  if Qle_bool 0 x then Qfloor x else Z.opp (Qfloor (- x)).

(** Line 38: [zone = int((lon + 180) / 6) + 1]. *)
Definition utm_zone (lon : Q) : Z := (py_int ((lon + 180) / 6) + 1)%Z.

(** [str(n)] of a Python int. *)
Definition z_str (n : Z) : string := NilZero.string_of_int (Z.to_int n).

(** [crs] is [gdf.crs] and [(lon, lat)] the centroid of the union of the
    geometries in EPSG:4326 (lines 34-37, computed by the GIS library);
    [None] is the [ValueError] of line 33. *)
Definition _get_local_utm_crs (crs : option string) (lon lat : Q) : option string :=
  match crs with
  | None => None
  | Some _ =>
    let zone := utm_zone lon in
    let south := negb (Qle_bool 0 lat) in
    let proj4 := String.append "+proj=utm +zone="
                   (String.append (z_str zone) " +datum=WGS84 +units=m +no_defs") in
    Some (if south then String.append proj4 " +south" else proj4)
  end.

(** ** Aggregation names (lines 111-120) *)

(** [aggs] is either a single string or an iterable of strings. *)
Inductive aggs_arg := AggStr (s : string) | AggSeq (l : list string).

(** [if isinstance(aggs, str): aggs = (aggs,)]; [aggs = list(aggs)] *)
Definition agg_names (a : aggs_arg) : list string :=
  match a with AggStr s => [s] | AggSeq l => l end.

(** [if "all" in aggs: aggs = list(SUPPORTED_AGGS)] *)
Definition normalize_aggs (a : aggs_arg) : list string :=
  let l := agg_names a in
  if mem "all" l then SUPPORTED_AGGS else l.

(** The first name that is not supported, if any. *)
Fixpoint first_unsupported (l : list string) : option string :=
  match l with
  | [] => None
  | a :: t => if mem a SUPPORTED_AGGS then first_unsupported t else Some a
  end.

(** ** Errors, the world and the effect monad *)

Inductive error :=
| ErrPresentationMissing                 (* presentation_gpkg is None *)
| ErrUnsupportedAggregation (a : string) (* Unsupported aggregation 'a' *)
| ErrNoCsIsh                             (* no 'cs_ish' column *)
| ErrNoLayers (f : string)               (* no layers in presentation_gpkg *)
| ErrIdField (c : string)                (* id_field not in presentation columns *)
| ErrKey (c : string)                    (* KeyError when selecting columns *)
| ErrNoFile (f : string)                 (* reading a missing file *)
| ErrNoLayer (f l : string).             (* reading a missing layer *)

Inductive result (A : Type) := Ok (a : A) | Err (e : error).
Arguments Ok {A}.
Arguments Err {A}.

Inductive event :=
| EvListLayers (f : string)
| EvRead (f l : string)
| EvWrite (f l : string)
| EvRemove (f : string)
| EvReplace (src dst : string).

Section Driver.

Variable G : Type.
Variable area : G -> Q.
(** [gpd.overlay(pres, inp, how="intersection")], external. *)
Variable overlay : frame G -> frame G -> frame G.

Definition gpkg := list (string * frame G).

(** The file system seen by the script: GeoPackages by path, and the log
    of every layer operation performed. *)
Record world := mkWorld { files : list (string * gpkg); log : list event }.

Definition M (A : Type) := world -> result A * world.

Definition ret {A} (a : A) : M A := fun w => (Ok a, w).
Definition fail {A} (e : error) : M A := fun w => (Err e, w).
Definition bind {A B} (m : M A) (k : A -> M B) : M B :=
  fun w => match m w with
           | (Ok a, w') => k a w'
           | (Err e, w') => (Err e, w')
           end.

Local Notation "x <- m ;; k" := (bind m (fun x => k))
  (at level 61, m at next level, right associativity).
Local Notation "m ;;; k" := (bind m (fun _ => k))
  (at level 61, right associativity).

Definition emit (e : event) (w : world) : world := mkWorld (files w) (log w ++ [e]).

(** [os.path.exists] *)
Definition path_exists (f : string) : M bool :=
  fun w => (Ok (match lookup f (files w) with Some _ => true | None => false end), w).

(** [fiona.listlayers] *)
Definition listlayers (f : string) : M (list string) :=
  fun w => let w' := emit (EvListLayers f) w in
    match lookup f (files w) with
    | Some g => (Ok (map fst g), w')
    | None => (Err (ErrNoFile f), w')
    end.

(** [gpd.read_file(f, layer=l)] *)
Definition read_file (f l : string) : M (frame G) :=
  fun w => let w' := emit (EvRead f l) w in
    match lookup f (files w) with
    | Some g => match lookup l g with
                | Some t => (Ok t, w')
                | None => (Err (ErrNoLayer f l), w')
                end
    | None => (Err (ErrNoFile f), w')
    end.

(** [t.to_file(f, layer=l, driver="GPKG")] (in mode "w" or "a"): the layer
    is created or replaced; a missing file is created. *)
Definition to_file (f l : string) (t : frame G) : M unit :=
  fun w => let w' := emit (EvWrite f l) w in
    let g := match lookup f (files w) with Some g => update l t g | None => [(l, t)] end in
    (Ok tt, mkWorld (update f g (files w')) (log w')).

(** [os.remove] *)
Definition os_remove (f : string) : M unit :=
  fun w => let w' := emit (EvRemove f) w in
    (Ok tt, mkWorld (remove_key f (files w')) (log w')).

(** [os.replace(src, dst)] *)
Definition os_replace (src dst : string) : M unit :=
  fun w => let w' := emit (EvReplace src dst) w in
    match lookup src (files w) with
    | Some g => (Ok tt, mkWorld (update dst g (remove_key src (files w'))) (log w'))
    | None => (Err (ErrNoFile src), w')
    end.

(** The loop of lines 82-89 (both branches of its [if] write the layer). *)
Fixpoint copy_layers (path name temp : string) (layers : list string) : M unit :=
  match layers with
  | [] => ret tt
  | lyr :: rest =>
      (if String.eqb lyr name then ret tt
       else gdf <- read_file path lyr ;; to_file temp lyr gdf) ;;;
      copy_layers path name temp rest
  end.

(** [_safe_write_layer_to_gpkg] (lines 64-96); [os.path.abspath] is the
    identity of the model. *)
Definition _safe_write_layer_to_gpkg (gpkg_path layer_name : string) (t : frame G) : M unit :=
  ex <- path_exists gpkg_path ;;
  if negb ex then to_file gpkg_path layer_name t else
  layers <- listlayers gpkg_path ;;
  if negb (mem layer_name layers) then to_file gpkg_path layer_name t else
  let temp_path := String.append gpkg_path ".tmp.gpkg" in
  ex2 <- path_exists temp_path ;;
  (if ex2 then os_remove temp_path else ret tt) ;;;
  copy_layers gpkg_path layer_name temp_path layers ;;;
  to_file temp_path layer_name t ;;;
  os_replace temp_path gpkg_path.

(** [gdf[cols + ["geometry"]]], raising [KeyError] on a missing column. *)
Definition select (cols : list string) (f : frame G) : M (frame G) :=
  match filter (fun c => negb (has_col (fcols f) c)) cols with
  | c :: _ => fail (ErrKey c)
  | [] => ret (mkFrame cols (map (fun r => mkRow (geom r)
                               (map (fun c => (c, get (attrs r) c)) cols)) (frows f)))
  end.

(** [aggregate_presentation_gpkg] (lines 98-246); printing is omitted and
    the projections are the identity. *)
Definition aggregate_presentation_gpkg (input_gpkg input_layer : string)
    (presentation_gpkg presentation_layer : option string) (id_field : string)
    (aggs_in : aggs_arg) (output_gpkg : option string) : M string :=
  match presentation_gpkg with
  | None => fail ErrPresentationMissing
  | Some pg =>
    let aggs := normalize_aggs aggs_in in
    match first_unsupported aggs with
    | Some a => fail (ErrUnsupportedAggregation a)
    | None =>
      let out := match output_gpkg with Some o => o | None => input_gpkg end in
      gdf_input <- read_file input_gpkg input_layer ;;
      if negb (has_col (fcols gdf_input) "cs_ish") then fail ErrNoCsIsh else
      pl <- (match presentation_layer with
             | Some l => ret l
             | None => layers <- listlayers pg ;;
                       match layers with [] => fail (ErrNoLayers pg) | l :: _ => ret l end
             end) ;;
      gdf_pres <- read_file pg pl ;;
      if negb (has_col (fcols gdf_pres) id_field) then fail (ErrIdField id_field) else
      let pres_p := set_col G "area_apresent_km2" (fun r => Some (km2 G area (geom r))) gdf_pres in
      input_sel <- select ["cobacia"; "cs_ish"] gdf_input ;;
      let inter := overlay pres_p input_sel in
      let out_layer_name := String.append "agg_" (splitext_root (basename pg)) in
      let result_pres := aggregate_core G area id_field aggs pres_p inter in
      _safe_write_layer_to_gpkg out out_layer_name result_pres ;;;
      ret out
    end
  end.

End Driver.

Arguments files {G}.
Arguments log {G}.
Arguments mkWorld {G}.

(** ** A grid instance of the geometry, for concrete runs

    Polygons are finite sets of unit cells of 1 km²; the overlay keeps,
    for every pair of a presentation row and an input row, their common
    cells when there are any, with the attributes of both rows. *)

From Stdlib Require Import ZArith.

Definition cells := list (Z * Z).

Definition cells_area (g : cells) : Q := inject_Z (Z.of_nat (length g)) * 1000000.

Definition cell_in (p : Z * Z) (g : cells) : bool :=
  existsb (fun q => Z.eqb (fst p) (fst q) && Z.eqb (snd p) (snd q)) g.

Definition cells_overlay (p i : frame cells) : frame cells :=
  mkFrame (fcols p ++ fcols i)
    (flat_map (fun pr =>
       flat_map (fun ir =>
         match filter (fun c => cell_in c (geom ir)) (geom pr) with
         | [] => []
         | g => [mkRow g (attrs pr ++ attrs ir)]
         end) (frows i)) (frows p)).

Definition mk_world (src pres : frame cells) : world cells :=
  mkWorld [("in.gpkg", [("regiao_completa", src)]); ("mun.gpkg", [("mun", pres)])] [].

(** [python -m scripts.aggregate_presentation] on [in.gpkg] and [mun.gpkg],
    with the default id field and output file. *)
Definition run_on (src pres : frame cells) (aggs : aggs_arg) : result string * world cells :=
  aggregate_presentation_gpkg cells cells_area cells_overlay "in.gpkg" "regiao_completa"
    (Some "mun.gpkg") None "id_apresent" aggs None (mk_world src pres).

Definition layer_at {G : Type} (fs : list (string * gpkg G)) (f l : string) : option (frame G) :=
  match lookup f fs with Some g => lookup l g | None => None end.

(** Whether row [i] of layer [l] of file [f] has column [c] holding [v]
    (NaN compares equal to NaN here). *)
Definition cell_is {G : Type} (fs : list (string * gpkg G)) (f l : string) (i : nat)
    (c : string) (v : cell) : bool :=
  match layer_at fs f l with
  | Some t => match nth_error (frows t) i with
              | Some r => match assoc c (attrs r) with Some x => cell_eqb x v | None => false end
              | None => false
              end
  | None => false
  end.

(** The source layer: one ottobacia of two cells with [cs_ish = 2]. *)
Definition src_layer : frame cells :=
  mkFrame ["cobacia"; "cs_ish"]
    [mkRow [(0, 0); (1, 0)]%Z [("cobacia", Some 1); ("cs_ish", Some 2)]].

(** Two municipalities: 1 lies inside the ottobacia, 2 outside it. *)
Definition pres_layer : frame cells :=
  mkFrame ["id_apresent"]
    [mkRow [(0, 0)]%Z [("id_apresent", Some 1)];
     mkRow [(5, 5)]%Z [("id_apresent", Some 2)]].

Definition world0 : world cells := mk_world src_layer pres_layer.

(** An output file whose first layer is an earlier [agg_mun]. *)
Definition world_out : world cells :=
  mkWorld [("out.gpkg", [("agg_mun", pres_layer); ("regiao_completa", src_layer)])] [].

Definition run0 (aggs : aggs_arg) : result string * world cells := run_on src_layer pres_layer aggs.

(** Presentation unit 1 made of two cells. *)
Definition pres_two : frame cells :=
  mkFrame ["id_apresent"] [mkRow [(0, 0); (1, 0)]%Z [("id_apresent", Some 1)]].

(** One ottobacia with value 3 covering half of unit 1. *)
Definition src_half : frame cells :=
  mkFrame ["cobacia"; "cs_ish"] [mkRow [(0, 0)]%Z [("cobacia", Some 1); ("cs_ish", Some 3)]].

(** Two ottobacias with values 1 and 5, one cell of unit 1 each. *)
Definition src_1_5 : frame cells :=
  mkFrame ["cobacia"; "cs_ish"]
    [mkRow [(0, 0)]%Z [("cobacia", Some 1); ("cs_ish", Some 1)];
     mkRow [(1, 0)]%Z [("cobacia", Some 2); ("cs_ish", Some 5)]].

(** A null value and the value 4, one cell of unit 1 each. *)
Definition src_null_4 : frame cells :=
  mkFrame ["cobacia"; "cs_ish"]
    [mkRow [(0, 0)]%Z [("cobacia", Some 1); ("cs_ish", None)];
     mkRow [(1, 0)]%Z [("cobacia", Some 2); ("cs_ish", Some 4)]].

(** One ottobacia with a null value covering unit 1. *)
Definition src_all_null : frame cells :=
  mkFrame ["cobacia"; "cs_ish"] [mkRow [(0, 0); (1, 0)]%Z [("cobacia", Some 1); ("cs_ish", None)]].

(** Projected presentation layer and an overlay output with two
    zero-area intersection records (values 1 and 3) for unit 1. *)
Definition pres_p_two : frame cells :=
  mkFrame ["id_apresent"; "area_apresent_km2"]
    [mkRow [(0, 0); (1, 0)]%Z [("id_apresent", Some 1); ("area_apresent_km2", Some 2)]].

Definition inter_zero_area : frame cells :=
  mkFrame ["id_apresent"; "area_apresent_km2"; "cobacia"; "cs_ish"]
    [mkRow [] [("id_apresent", Some 1); ("area_apresent_km2", Some 2);
               ("cobacia", Some 1); ("cs_ish", Some 1)];
     mkRow [] [("id_apresent", Some 1); ("area_apresent_km2", Some 2);
               ("cobacia", Some 2); ("cs_ish", Some 3)]].

(** Two presentation units; only unit 1 meets [inter_zero_area]. *)
Definition pres_p_pair : frame cells :=
  mkFrame ["id_apresent"; "area_apresent_km2"]
    [mkRow [(0, 0); (1, 0)]%Z [("id_apresent", Some 1); ("area_apresent_km2", Some 2)];
     mkRow [(5, 5)]%Z [("id_apresent", Some 2); ("area_apresent_km2", Some 1)]].

(** Row [i] of a frame has column [c] holding [v]. *)
Definition frame_cell_is {G : Type} (f : frame G) (i : nat) (c : string) (v : cell) : bool :=
  match nth_error (frows f) i with
  | Some r => match assoc c (attrs r) with Some x => cell_eqb x v | None => false end
  | None => false
  end.

(** ** Auxiliary definitions of the properties *)

(** The effect of writing layer [n] with content [t] into file [p]: the
    layer holds [t], the other layers of [p] are kept, and files other
    than [p] and its scratch copy [p.tmp.gpkg] are untouched. *)
Definition writes_layer {G : Type} (fs fs' : list (string * gpkg G)) (p n : string)
    (t : frame G) : Prop :=
  (forall f, f <> p -> f <> String.append p ".tmp.gpkg" -> lookup f fs' = lookup f fs) /\
  (forall l, l <> n -> layer_at fs' p l = layer_at fs p l) /\
  layer_at fs' p n = Some t.

(** Column names reserved by the aggregation: the id field must not
    collide with them. *)
Definition reserved_name (c : string) : bool :=
  String.prefix "cs_ish_" c || String.prefix "area_" c.

Definition reserved (c : string) : bool := reserved_name c || String.eqb c "weighted".

(** [p] is a prefix of [l]. *)
Fixpoint lprefix (p l : list ascii) : bool :=
  match p, l with
  | [], _ => true
  | x :: p', y :: l' => Ascii.eqb x y && lprefix p' l'
  | _, _ => false
  end.

(** [s] ends with [t] (compared on the reversed characters). *)
Definition ends_with (t s : string) : bool :=
  lprefix (rev (list_ascii_of_string t)) (rev (list_ascii_of_string s)).

(** The columns of a right-hand table: the key and reserved names. *)
Definition table_ok (k : string) (cols : list string) : Prop :=
  forall c, In c cols -> c = k \/ reserved_name c = true.

(** [o] is the output row of presentation row [p]: same id, and NaN in
    every requested column when [p] is not matched ([U p]). *)
Definition unit_rel {G : Type} (k : string) (aggs : list string) (U : row G -> Prop)
    (p o : row G) : Prop :=
  get (attrs o) k = get (attrs p) k /\
  (U p -> forall a, In a aggs -> get (attrs o) (agg_col a) = None).

(** No row of [rs] carries the id of a presentation row satisfying [U]. *)
Definition keys_avoid {G : Type} (k : string) (U : row G -> Prop) (rs : list (row G)) : Prop :=
  forall p, U p -> forall r, In r rs -> cell_eqb (get (attrs p) k) (get (attrs r) k) = false.

(** Presentation row [p] has no intersection record in [inter]. *)
Definition no_intersection {G : Type} (k : string) (inter : frame G) (p : row G) : bool :=
  forallb (fun r => negb (cell_eqb (get (attrs r) k) (get (attrs p) k))) (frows inter).

(** Pairs ordered by their first component (the value). *)
Definition fst_le (p q : Q * Q) : Prop := fst p <= fst q.

(** The layers of [g] other than [n], in order. *)
Definition drop_layer {V : Type} (n : string) (g : list (string * V)) : list (string * V) :=
  filter (fun l => negb (String.eqb (fst l) n)) g.

(** [None] for an empty file content, as a scratch file not yet written. *)
Definition opt_nonempty {V : Type} (h : list (string * V)) : option (list (string * V)) :=
  match h with [] => None | _ => Some h end.

(** [f'] has one row per row of [f], in order, with the same geometry. *)
Definition same_geoms (G : Type) (f f' : frame G) : Prop :=
  Forall2 (fun (r r' : row G) => geom r' = geom r) (frows f) (frows f').

(** * Properties *)

(** ** Mean: the output column [cs_ish_mean]

    Claim C1.  A unit half covered by one source unit of value 3: the
    group-by computes [3 * 0.5], but the left merge at line 206 meets the
    [cs_ish_mean] column initialised at line 184, so the value lands in
    [cs_ish_mean_y], and line 235 re-creates [cs_ish_mean] as NaN. *)
Theorem mean_column_nan_on_half_cover :
  let fs := files (snd (run_on src_half pres_two (AggSeq ["mean"]))) in
  cell_is fs "in.gpkg" "agg_mun" 0 "cs_ish_mean" None = true /\
  cell_is fs "in.gpkg" "agg_mun" 0 "cs_ish_mean_y" (Some (3 # 2)) = true.
Proof. vm_compute. split; reflexivity. Qed.

(** ** Median: the output column [cs_ish_median]

    Claim C2.  Values 1 and 5 with equal weights: [_weighted_median]
    returns 1 (first value whose cumulative weight reaches half), which
    lands in [cs_ish_median_y]; [cs_ish_median] is NaN. *)
Theorem median_column_nan_on_tie :
  let fs := files (snd (run_on src_1_5 pres_two (AggSeq ["median"]))) in
  cell_is fs "in.gpkg" "agg_mun" 0 "cs_ish_median" None = true /\
  cell_is fs "in.gpkg" "agg_mun" 0 "cs_ish_median_y" (Some 1) = true.
Proof. vm_compute. split; reflexivity. Qed.

(** Claim C5.  Two zero-area records with values 1 and 3: the fallback
    gives the unweighted median 2 in [cs_ish_median_y]; [cs_ish_median]
    is NaN. *)
Theorem median_column_nan_on_zero_weights :
  let out := aggregate_core cells cells_area "id_apresent" ["median"] pres_p_two inter_zero_area in
  frame_cell_is out 0 "cs_ish_median" None = true /\
  frame_cell_is out 0 "cs_ish_median_y" (Some 2) = true.
Proof. vm_compute. split; reflexivity. Qed.

(** ** Max and min

    Claim C6.  A null and the value 4: max and min of the non-null values
    are 4, found in [cs_ish_max_y] and [cs_ish_min_y]; the requested
    columns are NaN. *)
Theorem max_min_columns_nan_with_null :
  let fs := files (snd (run_on src_null_4 pres_two (AggSeq ["max"; "min"]))) in
  cell_is fs "in.gpkg" "agg_mun" 0 "cs_ish_max" None = true /\
  cell_is fs "in.gpkg" "agg_mun" 0 "cs_ish_min" None = true /\
  cell_is fs "in.gpkg" "agg_mun" 0 "cs_ish_max_y" (Some 4) = true /\
  cell_is fs "in.gpkg" "agg_mun" 0 "cs_ish_min_y" (Some 4) = true.
Proof. vm_compute. repeat split. Qed.

(** Claim C9.  A covered unit whose only value is null: the weighted sum
    is 0 ([cs_ish_mean_y]), but [cs_ish_mean] is NaN; median, max and min
    are NaN. *)
Theorem all_null_group_mean_nan :
  let fs := files (snd (run_on src_all_null pres_two (AggSeq ["all"]))) in
  cell_is fs "in.gpkg" "agg_mun" 0 "cs_ish_mean" None = true /\
  cell_is fs "in.gpkg" "agg_mun" 0 "cs_ish_mean_y" (Some 0) = true /\
  cell_is fs "in.gpkg" "agg_mun" 0 "cs_ish_median" None = true /\
  cell_is fs "in.gpkg" "agg_mun" 0 "cs_ish_max" None = true /\
  cell_is fs "in.gpkg" "agg_mun" 0 "cs_ish_min" None = true.
Proof. vm_compute. repeat split. Qed.

(** ** The sentinel "all"

    Claim C7.  ["all"] normalises to the four aggregations, whose columns
    are [cs_ish_mean], [cs_ish_median], [cs_ish_max], [cs_ish_min], and a
    run requesting ["all"] is the run requesting the four names: same
    result, same store, same log. *)
Theorem all_same_as_four :
  forall (G : Type) (area : G -> Q) (overlay : frame G -> frame G -> frame G)
         input_gpkg input_layer presentation_gpkg presentation_layer id_field
         output_gpkg (w : world G),
  map agg_col (normalize_aggs (AggSeq ["all"])) =
    ["cs_ish_mean"; "cs_ish_median"; "cs_ish_max"; "cs_ish_min"] /\
  aggregate_presentation_gpkg G area overlay input_gpkg input_layer presentation_gpkg
    presentation_layer id_field (AggSeq ["all"]) output_gpkg w =
  aggregate_presentation_gpkg G area overlay input_gpkg input_layer presentation_gpkg
    presentation_layer id_field (AggSeq ["mean"; "median"; "max"; "min"]) output_gpkg w.
Proof. intros. split; reflexivity. Qed.

(** ** Validation of aggregation names *)

Lemma mem_In (a : string) (l : list string) : mem a l = true <-> In a l.
Proof.
  unfold mem. rewrite existsb_exists. split.
  - intros [x [Hx Hax]]. apply String.eqb_eq in Hax. subst. exact Hx.
  - intros H. exists a. split; [exact H | apply String.eqb_refl].
Qed.

Lemma first_unsupported_none (l : list string) :
  first_unsupported l = None -> forall a, In a l -> In a SUPPORTED_AGGS.
Proof.
  induction l as [|x t IH]; cbn [first_unsupported In]; [tauto|].
  destruct (mem x SUPPORTED_AGGS) eqn:Hm; [|intros H; discriminate H].
  intros Hn a [<- | Ha]; [apply mem_In; exact Hm | exact (IH Hn a Ha)].
Qed.

Lemma first_unsupported_some (l : list string) (b : string) :
  first_unsupported l = Some b -> In b l /\ ~ In b SUPPORTED_AGGS.
Proof.
  induction l as [|x t IH]; cbn [first_unsupported In]; [discriminate|].
  destruct (mem x SUPPORTED_AGGS) eqn:Hm.
  - intros H. destruct (IH H). split; [right|]; assumption.
  - intros H. injection H as <-. split; [left; reflexivity|].
    intros Hin. apply (proj2 (mem_In _ _)) in Hin. congruence.
Qed.

(** Claim C8 (as amended).  Without the sentinel "all", a requested name
    outside mean, median, max, min makes the run fail with an unsupported
    aggregation error naming an unsupported requested name, before any
    effect: the world (store and log) is returned unchanged.  With "all"
    among the requested names, whatever the other names (supported or
    not), the run is the run that requests mean, median, max and min
    explicitly (line 116 replaces the whole list). *)
Theorem unsupported_name_rejected :
  forall (G : Type) (area : G -> Q) (overlay : frame G -> frame G -> frame G)
         input_gpkg input_layer pg presentation_layer id_field output_gpkg (w : world G),
  (forall aggs a,
    ~ In "all" (agg_names aggs) -> In a (agg_names aggs) -> ~ In a SUPPORTED_AGGS ->
    exists b,
      aggregate_presentation_gpkg G area overlay input_gpkg input_layer (Some pg)
        presentation_layer id_field aggs output_gpkg w = (Err (ErrUnsupportedAggregation b), w) /\
      In b (agg_names aggs) /\ ~ In b SUPPORTED_AGGS) /\
  (forall aggs,
    In "all" (agg_names aggs) ->
    aggregate_presentation_gpkg G area overlay input_gpkg input_layer (Some pg)
      presentation_layer id_field aggs output_gpkg w
    = aggregate_presentation_gpkg G area overlay input_gpkg input_layer (Some pg)
        presentation_layer id_field (AggSeq ["mean"; "median"; "max"; "min"]) output_gpkg w).
Proof.
  intros G area overlay ig il pg pl k og w. split.
  - intros aggs a Hall Ha Hns.
    assert (Hn : normalize_aggs aggs = agg_names aggs).
    { unfold normalize_aggs. destruct (mem "all" (agg_names aggs)) eqn:Hm; [|reflexivity].
      apply (proj1 (mem_In _ _)) in Hm. contradiction. }
    unfold aggregate_presentation_gpkg. rewrite Hn.
    destruct (first_unsupported (agg_names aggs)) as [b|] eqn:Hf.
    + exists b. split; [reflexivity|]. exact (first_unsupported_some _ _ Hf).
    + exfalso. exact (Hns (first_unsupported_none _ Hf a Ha)).
  - intros aggs Hall.
    assert (Hn : normalize_aggs aggs = normalize_aggs (AggSeq ["mean"; "median"; "max"; "min"])).
    { unfold normalize_aggs at 1. rewrite (proj2 (mem_In _ _) Hall). reflexivity. }
    unfold aggregate_presentation_gpkg. rewrite Hn. reflexivity.
Qed.

Lemma unsupported_name_rejected_witness :
  (~ In "all" (agg_names (AggSeq ["mean"; "sum"])) /\ In "sum" (agg_names (AggSeq ["mean"; "sum"])) /\
   ~ In "sum" SUPPORTED_AGGS /\
   exists b,
     aggregate_presentation_gpkg cells cells_area cells_overlay "in.gpkg" "regiao_completa"
       (Some "mun.gpkg") None "id_apresent" (AggSeq ["mean"; "sum"]) None world0
     = (Err (ErrUnsupportedAggregation b), world0) /\
     In b (agg_names (AggSeq ["mean"; "sum"])) /\ ~ In b SUPPORTED_AGGS) /\
  (In "all" (agg_names (AggSeq ["sum"; "all"])) /\
   aggregate_presentation_gpkg cells cells_area cells_overlay "in.gpkg" "regiao_completa"
     (Some "mun.gpkg") None "id_apresent" (AggSeq ["sum"; "all"]) None world0
   = aggregate_presentation_gpkg cells cells_area cells_overlay "in.gpkg" "regiao_completa"
       (Some "mun.gpkg") None "id_apresent" (AggSeq ["mean"; "median"; "max"; "min"]) None world0).
Proof.
  pose proof (unsupported_name_rejected cells cells_area cells_overlay "in.gpkg" "regiao_completa"
                "mun.gpkg" None "id_apresent" None world0) as [T1 T2].
  assert (H1 : ~ In "all" (agg_names (AggSeq ["mean"; "sum"]))).
  { simpl. intros [H|[H|H]]; discriminate || contradiction. }
  assert (H2 : In "sum" (agg_names (AggSeq ["mean"; "sum"]))) by (simpl; right; left; reflexivity).
  assert (H3 : ~ In "sum" SUPPORTED_AGGS).
  { simpl. intros [H|[H|[H|[H|H]]]]; discriminate || contradiction. }
  assert (H4 : In "all" (agg_names (AggSeq ["sum"; "all"]))) by (simpl; right; left; reflexivity).
  split.
  - split; [exact H1|]. split; [exact H2|]. split; [exact H3|].
    exact (T1 (AggSeq ["mean"; "sum"]) "sum" H1 H2 H3).
  - split; [exact H4 | exact (T2 (AggSeq ["sum"; "all"]) H4)].
Defined.

(** Claim C8, counterexample.  ["all"; "sum"] names the unsupported
    "sum", yet no error is raised: "all" replaces the whole list, the run
    succeeds and writes the output layer [agg_mun]. *)
Lemma all_masks_unsupported_name :
  fst (run0 (AggSeq ["all"; "sum"])) = Ok "in.gpkg" /\
  layer_at (files (snd (run0 (AggSeq ["all"; "sum"])))) "in.gpkg" "agg_mun" <> None.
Proof. vm_compute. split; [reflexivity | discriminate]. Qed.

(** ** Validation happens before any effect *)

Section NoLateUnsupported.

Variable G : Type.

(** A computation that never fails with an unsupported-aggregation error. *)
Definition never_unsup {A : Type} (m : M G A) : Prop :=
  forall w a w', m w <> (Err (ErrUnsupportedAggregation a), w').

Lemma nu_ret {A} (x : A) : never_unsup (ret G x).
Proof. intros w a w' H. discriminate H. Qed.

Lemma nu_fail {A} (e : error) : (forall a, e <> ErrUnsupportedAggregation a) ->
  never_unsup (A := A) (fail G e).
Proof. intros He w a w' H. injection H as H _. exact (He a H). Qed.

Lemma nu_bind {A B} (m : M G A) (k : A -> M G B) :
  never_unsup m -> (forall x, never_unsup (k x)) -> never_unsup (bind G m k).
Proof.
  intros Hm Hk w a w' H. unfold bind in H.
  destruct (m w) as [[x|e] w1] eqn:E.
  - exact (Hk x w1 a w' H).
  - injection H as -> ->. exact (Hm w a w' E).
Qed.

Lemma nu_path_exists f : never_unsup (path_exists G f).
Proof. intros w a w' H. discriminate H. Qed.

Lemma nu_listlayers f : never_unsup (listlayers G f).
Proof. intros w a w' H. unfold listlayers in H. destruct (lookup f (files w)); discriminate H. Qed.

Lemma nu_read_file f l : never_unsup (read_file G f l).
Proof.
  intros w a w' H. unfold read_file in H.
  destruct (lookup f (files w)) as [g|]; [destruct (lookup l g)|]; discriminate H.
Qed.

Lemma nu_to_file f l t : never_unsup (to_file G f l t).
Proof. intros w a w' H. discriminate H. Qed.

Lemma nu_os_remove f : never_unsup (os_remove G f).
Proof. intros w a w' H. discriminate H. Qed.

Lemma nu_os_replace s d : never_unsup (os_replace G s d).
Proof. intros w a w' H. unfold os_replace in H. destruct (lookup s (files w)); discriminate H. Qed.

Lemma nu_select cols f : never_unsup (select G cols f).
Proof.
  unfold select. destruct (filter _ cols); [apply nu_ret | apply nu_fail; discriminate].
Qed.

End NoLateUnsupported.

Create HintDb nu.
Global Hint Resolve nu_ret nu_path_exists nu_listlayers nu_read_file nu_to_file nu_os_remove
  nu_os_replace nu_select : nu.

Ltac nu_step :=
  first
  [ apply nu_bind; [| intro]
  | apply nu_fail; discriminate
  | progress auto with nu
  | match goal with
    | |- never_unsup _ (if ?b then _ else _) => destruct b
    | |- never_unsup _ (match ?x with _ => _ end) => destruct x
    end ].

Lemma nu_copy_layers G p n t layers : never_unsup G (copy_layers G p n t layers).
Proof. induction layers as [|l rest IH]; simpl; repeat nu_step; exact IH. Qed.

Lemma nu_safe_write G p n t : never_unsup G (_safe_write_layer_to_gpkg G p n t).
Proof. unfold _safe_write_layer_to_gpkg. repeat nu_step; apply nu_copy_layers. Qed.


(** Claim C10.  Whenever a run fails with an unsupported-aggregation
    error, the error came from the up-front validation of the names: the
    world is returned unchanged (no layer was listed, read or written and
    the store is as before). *)
Theorem unsupported_error_leaves_world :
  forall (G : Type) (area : G -> Q) (overlay : frame G -> frame G -> frame G)
         input_gpkg input_layer presentation_gpkg presentation_layer id_field aggs
         output_gpkg (w w' : world G) (a : string),
  aggregate_presentation_gpkg G area overlay input_gpkg input_layer presentation_gpkg
    presentation_layer id_field aggs output_gpkg w = (Err (ErrUnsupportedAggregation a), w') ->
  w' = w /\ first_unsupported (normalize_aggs aggs) = Some a.
Proof.
  intros G area overlay ig il pg pl k aggs og w w' a H.
  unfold aggregate_presentation_gpkg in H.
  destruct pg as [pg|]; [|discriminate H].
  destruct (first_unsupported (normalize_aggs aggs)) as [b|] eqn:Hf.
  - injection H as -> ->. split; reflexivity.
  - exfalso. cbv zeta in H.
    match type of H with ?m w = _ =>
      assert (Hnu : never_unsup G m) by (repeat (apply nu_safe_write || nu_step))
    end.
    exact (Hnu w a w' H).
Qed.

Lemma unsupported_error_leaves_world_witness :
  run0 (AggSeq ["sum"]) = (Err (ErrUnsupportedAggregation "sum"), world0) /\
  world0 = world0 /\ first_unsupported (normalize_aggs (AggSeq ["sum"])) = Some "sum".
Proof.
  split; [reflexivity|].
  exact (unsupported_error_leaves_world cells cells_area cells_overlay "in.gpkg" "regiao_completa"
           (Some "mun.gpkg") None "id_apresent" (AggSeq ["sum"]) None world0 world0 "sum"
           eq_refl).
Defined.

(** Claim C4, counterexample.  The aggregation is not free of effects: a
    successful run itself writes the layer [agg_mun] into the output store
    [in.gpkg], which did not hold it before. *)
Lemma aggregation_writes_store :
  layer_at (files world0) "in.gpkg" "agg_mun" = None /\
  fst (run0 (AggSeq ["mean"])) = Ok "in.gpkg" /\
  layer_at (files (snd (run0 (AggSeq ["mean"])))) "in.gpkg" "agg_mun" <> None.
Proof. vm_compute. split; [reflexivity | split; [reflexivity | discriminate]]. Qed.

(** ** The writer touches one layer of the output store *)

Lemma lookup_update {V : Type} (k k' : string) (v : V) (xs : list (string * V)) :
  lookup k (update k' v xs) = if String.eqb k k' then Some v else lookup k xs.
Proof.
  induction xs as [|[k1 v1] t IH]; cbn [update lookup].
  - destruct (String.eqb k k'); reflexivity.
  - destruct (String.eqb k' k1) eqn:E1; cbn [lookup].
    + apply String.eqb_eq in E1; subst k1. destruct (String.eqb k k'); reflexivity.
    + rewrite IH. destruct (String.eqb k k1) eqn:E2; [|reflexivity].
      apply String.eqb_eq in E2; subst k1. rewrite String.eqb_sym, E1. reflexivity.
Qed.

Lemma lookup_remove {V : Type} (k k' : string) (xs : list (string * V)) :
  lookup k (remove_key k' xs) = if String.eqb k k' then None else lookup k xs.
Proof.
  induction xs as [|[k1 v1] t IH]; cbn [remove_key lookup].
  - destruct (String.eqb k k'); reflexivity.
  - destruct (String.eqb k' k1) eqn:E1; cbn [lookup].
    + apply String.eqb_eq in E1; subst k1. rewrite IH. destruct (String.eqb k k'); reflexivity.
    + rewrite IH. destruct (String.eqb k k1) eqn:E2; [|reflexivity].
      apply String.eqb_eq in E2; subst k1. rewrite String.eqb_sym, E1. reflexivity.
Qed.

Lemma lookup_not_mem {V : Type} (l : string) (g : list (string * V)) :
  mem l (map fst g) = false -> lookup l g = None.
Proof.
  induction g as [|[k v] t IH]; cbn; [reflexivity|].
  destruct (String.eqb l k); [discriminate | exact IH].
Qed.

Section Effects.

Variable G : Type.

Lemma bind_ok_inv {A B} (m : M G A) (k : A -> M G B) w b w'' :
  bind G m k w = (Ok b, w'') -> exists a w', m w = (Ok a, w') /\ k a w' = (Ok b, w'').
Proof.
  unfold bind. destruct (m w) as [[a|e] w1]; intros H; [eauto | discriminate H].
Qed.

Lemma ret_inv {A} (x y : A) w w' : ret G x w = (Ok y, w') -> y = x /\ w' = w.
Proof. intros H. injection H as -> ->. split; reflexivity. Qed.

Lemma fail_not_ok {A} e (y : A) w w' : fail G e w <> (Ok y, w').
Proof. intros H. discriminate H. Qed.

Lemma path_exists_inv f w b w' : path_exists G f w = (Ok b, w') ->
  w' = w /\ b = match lookup f (files w) with Some _ => true | None => false end.
Proof. intros H. injection H as <- <-. split; reflexivity. Qed.

Lemma listlayers_inv f w ls w' : listlayers G f w = (Ok ls, w') ->
  files w' = files w /\ exists g, lookup f (files w) = Some g /\ ls = map fst g.
Proof.
  unfold listlayers. destruct (lookup f (files w)) as [g|]; intros H; [|discriminate H].
  injection H as <- <-. split; [reflexivity | eauto].
Qed.

Lemma read_file_inv f l w t w' : read_file G f l w = (Ok t, w') ->
  files w' = files w /\ layer_at (files w) f l = Some t.
Proof.
  unfold read_file, layer_at. destruct (lookup f (files w)) as [g|]; [|discriminate].
  destruct (lookup l g) as [t'|]; intros H; [|discriminate H].
  injection H as <- <-. split; reflexivity.
Qed.

Lemma select_inv cols f w x w' : select G cols f w = (Ok x, w') -> w' = w.
Proof.
  unfold select. destruct (filter _ cols); intros H; [|discriminate H].
  injection H as _ <-. reflexivity.
Qed.

Lemma select_any_world cols f w x w' : select G cols f w = (Ok x, w') ->
  forall v, select G cols f v = (Ok x, v).
Proof.
  unfold select. destruct (filter _ cols); intros H v; [|discriminate H].
  injection H as <- _. reflexivity.
Qed.

Lemma to_file_inv f l t w r w' : to_file G f l t w = (r, w') ->
  (forall f', f' <> f -> lookup f' (files w') = lookup f' (files w)) /\
  (forall l', layer_at (files w') f l' =
              if String.eqb l' l then Some t else layer_at (files w) f l').
Proof.
  unfold to_file. intros H. injection H as _ <-. cbn [files emit]. split.
  - intros f' Hf. rewrite lookup_update.
    apply String.eqb_neq in Hf. rewrite Hf. reflexivity.
  - intros l'. unfold layer_at. rewrite lookup_update, String.eqb_refl.
    destruct (lookup f (files w)) as [g|].
    + rewrite lookup_update. reflexivity.
    + cbn. destruct (String.eqb l' l); reflexivity.
Qed.

Lemma os_remove_inv f w r w' : os_remove G f w = (r, w') ->
  forall f', lookup f' (files w') = if String.eqb f' f then None else lookup f' (files w).
Proof.
  unfold os_remove. intros H. injection H as _ <-. intros f'. cbn. apply lookup_remove.
Qed.

Lemma os_replace_inv s d w w' : os_replace G s d w = (Ok tt, w') ->
  exists g, lookup s (files w) = Some g /\
  forall f', lookup f' (files w') =
             if String.eqb f' d then Some g
             else if String.eqb f' s then None else lookup f' (files w).
Proof.
  unfold os_replace. destruct (lookup s (files w)) as [g|] eqn:E; intros H; [|discriminate H].
  injection H as <-. exists g. split; [reflexivity|]. intros f'. cbn.
  rewrite lookup_update, lookup_remove. reflexivity.
Qed.

End Effects.

Lemma append_neq_self (p s : string) : s <> EmptyString -> String.append p s <> p.
Proof.
  intros Hs. induction p as [|a p IH]; cbn; [exact Hs|].
  intros H. injection H as H. exact (IH H).
Qed.

Lemma mem_cons (a x : string) (l : list string) : mem a (x :: l) = String.eqb a x || mem a l.
Proof. reflexivity. Qed.

Lemma copy_layers_inv (G : Type) (p n temp : string) (g : gpkg G) (layers : list string) :
  forall w w', temp <> p -> lookup p (files w) = Some g ->
  copy_layers G p n temp layers w = (Ok tt, w') ->
  (forall f, f <> temp -> lookup f (files w') = lookup f (files w)) /\
  (forall l, layer_at (files w') temp l =
     if mem l layers && negb (String.eqb l n) then lookup l g else layer_at (files w) temp l).
Proof.
  induction layers as [|lyr rest IH]; intros w w' Htp Hp H; cbn [copy_layers] in H.
  - apply ret_inv in H as [_ ->]. split; reflexivity.
  - apply bind_ok_inv in H as ([] & w1 & H1 & H2).
    destruct (String.eqb lyr n) eqn:Eln.
    + apply ret_inv in H1 as [_ ->]. destruct (IH w w' Htp Hp H2) as [A B].
      split; [exact A|]. intros l. rewrite B.
      destruct (String.eqb l n) eqn:Eq; cbn [negb]; rewrite ?andb_false_r, ?andb_true_r;
        [reflexivity|].
      rewrite mem_cons. destruct (String.eqb l lyr) eqn:E; [|reflexivity].
      apply String.eqb_eq in E, Eln. subst. rewrite String.eqb_refl in Eq. discriminate.
    + apply bind_ok_inv in H1 as (gdf & w2 & R & Wr).
      apply read_file_inv in R as [F2 L2].
      unfold layer_at in L2. rewrite Hp in L2.
      destruct (to_file_inv G temp lyr gdf w2 _ _ Wr) as [T1 T2].
      assert (Hp1 : lookup p (files w1) = Some g).
      { rewrite T1 by (intro; subst; contradiction). rewrite F2. exact Hp. }
      destruct (IH w1 w' Htp Hp1 H2) as [A B]. split.
      * intros f Hf. rewrite A, T1, F2 by exact Hf. reflexivity.
      * intros l. rewrite B, T2, F2.
        destruct (String.eqb l n) eqn:Eq; cbn [negb]; rewrite ?andb_false_r, ?andb_true_r.
        -- destruct (String.eqb l lyr) eqn:E; [|reflexivity].
           apply String.eqb_eq in E, Eq. subst. rewrite String.eqb_refl in Eln. discriminate.
        -- rewrite mem_cons. destruct (mem l rest) eqn:Em; rewrite ?orb_true_r; [reflexivity|].
           rewrite orb_false_r. destruct (String.eqb l lyr) eqn:E; [|reflexivity].
           apply String.eqb_eq in E. subst. symmetry. exact L2.
Qed.

Lemma to_file_writes_layer (G : Type) p n t (w w' : world G) r :
  to_file G p n t w = (r, w') -> writes_layer (files w) (files w') p n t.
Proof.
  intros H. destruct (to_file_inv G p n t w r w' H) as [A B]. split; [|split].
  - intros f Hf _. exact (A f Hf).
  - intros l Hl. rewrite B. apply String.eqb_neq in Hl. rewrite Hl. reflexivity.
  - rewrite B, String.eqb_refl. reflexivity.
Qed.

Lemma safe_write_inv (G : Type) (p n : string) (t : frame G) (w w' : world G) :
  _safe_write_layer_to_gpkg G p n t w = (Ok tt, w') -> writes_layer (files w) (files w') p n t.
Proof.
  unfold _safe_write_layer_to_gpkg. cbv zeta. intros H.
  apply bind_ok_inv in H as (ex & w1 & E1 & H). apply path_exists_inv in E1 as [-> ->].
  destruct (lookup p (files w)) as [g|] eqn:Ep; cbn [negb] in H.
  - apply bind_ok_inv in H as (ls & w2 & E2 & H).
    apply listlayers_inv in E2 as [F2 (g' & Eg' & ->)].
    rewrite Ep in Eg'. injection Eg' as <-.
    destruct (mem n (map fst g)) eqn:Em; cbn [negb] in H.
    + set (temp := String.append p ".tmp.gpkg") in *.
      assert (Htp : temp <> p) by (apply append_neq_self; discriminate).
      apply bind_ok_inv in H as (ex2 & w3 & E3 & H). apply path_exists_inv in E3 as [-> ->].
      apply bind_ok_inv in H as ([] & w4 & E4 & H).
      assert (F4 : forall f, lookup f (files w4) =
                             if String.eqb f temp then None else lookup f (files w2)).
      { destruct (lookup temp (files w2)) as [gt|] eqn:Et.
        - exact (os_remove_inv G temp w2 _ _ E4).
        - apply ret_inv in E4 as [_ ->]. intros f.
          destruct (String.eqb f temp) eqn:Ef; [|reflexivity].
          apply String.eqb_eq in Ef. subst. exact Et. }
      apply bind_ok_inv in H as ([] & w5 & E5 & H).
      assert (Hp4 : lookup p (files w4) = Some g).
      { rewrite F4, F2. rewrite (proj2 (String.eqb_neq p temp)) by (intro; apply Htp; symmetry; assumption).
        exact Ep. }
      destruct (copy_layers_inv G p n temp g (map fst g) w4 w5 Htp Hp4 E5) as [A5 B5].
      apply bind_ok_inv in H as ([] & w6 & E6 & H).
      destruct (to_file_inv G temp n t w5 _ _ E6) as [A6 B6].
      destruct (os_replace_inv G temp p w6 w' H) as (gt & Et & R).
      assert (Lt : forall l, lookup l gt = layer_at (files w6) temp l).
      { intros l. unfold layer_at. rewrite Et. reflexivity. }
      assert (Lp : forall l, layer_at (files w') p l = lookup l gt).
      { intros l. unfold layer_at. rewrite R, String.eqb_refl. reflexivity. }
      split; [|split].
      * intros f Hfp Hft. rewrite R.
        rewrite (proj2 (String.eqb_neq f p) Hfp), (proj2 (String.eqb_neq f temp) Hft).
        rewrite A6, A5, F4, F2 by exact Hft.
        rewrite (proj2 (String.eqb_neq f temp) Hft). reflexivity.
      * intros l Hl. rewrite Lp, Lt, B6, B5. rewrite (proj2 (String.eqb_neq l n) Hl).
        cbn [negb]. rewrite andb_true_r.
        assert (N4 : layer_at (files w4) temp l = None).
        { unfold layer_at. rewrite F4, String.eqb_refl. reflexivity. }
        rewrite N4. unfold layer_at. rewrite Ep.
        destruct (mem l (map fst g)) eqn:Eml; [reflexivity|].
        symmetry. exact (lookup_not_mem l g Eml).
      * rewrite Lp, Lt, B6, String.eqb_refl. reflexivity.
    + pose proof (to_file_writes_layer G p n t w2 w' _ H) as Hw. rewrite F2 in Hw. exact Hw.
  - exact (to_file_writes_layer G p n t w w' _ H).
Qed.

(** Claim C4 (as amended).  A successful run is not free of effects and
    does its own persistence: it returns the output path ([output_gpkg],
    by default [input_gpkg]) and has written its result as layer
    [agg_<presentation basename>] there, keeping every other layer of
    that file and every other file except the scratch [<output>.tmp.gpkg]
    unchanged.  The layer written is the aggregation of the layers the run
    read: the input layer [gi], and the presentation layer [gp] (the one
    named, or else the first layer of the presentation file), projected
    with its areas as [pres_p] and intersected with the [cobacia] and
    [cs_ish] columns of [gi] (lines 126-246).  (The input frames are
    values and are not modified.) *)
Theorem run_writes_output_layer :
  forall (G : Type) (area : G -> Q) (overlay : frame G -> frame G -> frame G)
         input_gpkg input_layer presentation_gpkg presentation_layer id_field aggs
         output_gpkg (w w' : world G) (out : string),
  aggregate_presentation_gpkg G area overlay input_gpkg input_layer presentation_gpkg
    presentation_layer id_field aggs output_gpkg w = (Ok out, w') ->
  out = match output_gpkg with Some o => o | None => input_gpkg end /\
  exists pg pl gi gp sel, presentation_gpkg = Some pg /\
    layer_at (files w) input_gpkg input_layer = Some gi /\
    layer_at (files w) pg pl = Some gp /\
    (presentation_layer = Some pl \/
     (presentation_layer = None /\
      exists g rest, lookup pg (files w) = Some g /\ map fst g = pl :: rest)) /\
    select G ["cobacia"; "cs_ish"] gi w = (Ok sel, w) /\
    writes_layer (files w) (files w') out (String.append "agg_" (splitext_root (basename pg)))
      (let pres_p := set_col G "area_apresent_km2" (fun r => Some (km2 G area (geom r))) gp in
       aggregate_core G area id_field (normalize_aggs aggs) pres_p (overlay pres_p sel)).
Proof.
  intros G area overlay ig il pg pl k aggs og w w' out H.
  unfold aggregate_presentation_gpkg in H.
  destruct pg as [pg|]; [|discriminate H].
  destruct (first_unsupported (normalize_aggs aggs)); [discriminate H|].
  cbv zeta in H.
  apply bind_ok_inv in H as (gi & w1 & E1 & H). apply read_file_inv in E1 as [F1 L1].
  destruct (negb (has_col (fcols gi) "cs_ish")); [discriminate H|].
  apply bind_ok_inv in H as (pl' & w2 & E2 & H).
  assert (F2 : files w2 = files w1 /\
               (pl = Some pl' \/
                (pl = None /\ exists g rest, lookup pg (files w1) = Some g /\ map fst g = pl' :: rest))).
  { destruct pl as [l|].
    - apply ret_inv in E2 as [-> ->]. split; [reflexivity | left; reflexivity].
    - apply bind_ok_inv in E2 as (ls & w2' & L & E2). apply listlayers_inv in L as [FL [g [Lg Eg]]].
      destruct ls as [|l0 ls]; [discriminate E2|]. apply ret_inv in E2 as [-> ->].
      split; [exact FL|]. right. split; [reflexivity|]. exists g, ls. split; [exact Lg | symmetry; exact Eg]. }
  destruct F2 as [F2 Hpl].
  apply bind_ok_inv in H as (gp & w3 & E3 & H). apply read_file_inv in E3 as [F3 L3].
  destruct (negb (has_col (fcols gp) k)); [discriminate H|].
  apply bind_ok_inv in H as (sel & w4 & E4 & H).
  pose proof (select_any_world G _ _ _ _ _ E4 w) as S4. apply select_inv in E4 as ->.
  apply bind_ok_inv in H as ([] & w5 & E5 & H). apply ret_inv in H as [-> ->].
  split; [reflexivity|]. exists pg, pl', gi, gp, sel.
  rewrite F2, F1 in L3. rewrite F1 in Hpl.
  split; [reflexivity|]. split; [exact L1|]. split; [exact L3|]. split; [exact Hpl|].
  split; [exact S4|].
  apply safe_write_inv in E5. rewrite F3, F2, F1 in E5. exact E5.
Qed.

Lemma run_writes_output_layer_witness :
  aggregate_presentation_gpkg cells cells_area cells_overlay "in.gpkg" "regiao_completa"
    (Some "mun.gpkg") None "id_apresent" (AggSeq ["mean"]) None world0
  = (Ok "in.gpkg", snd (run0 (AggSeq ["mean"]))) /\
  ("in.gpkg" = match (None : option string) with Some o => o | None => "in.gpkg" end /\
   exists pg pl gi gp sel, Some "mun.gpkg" = Some pg /\
    layer_at (files world0) "in.gpkg" "regiao_completa" = Some gi /\
    layer_at (files world0) pg pl = Some gp /\
    ((None : option string) = Some pl \/
     ((None : option string) = None /\
      exists g rest, lookup pg (files world0) = Some g /\ map fst g = pl :: rest)) /\
    select cells ["cobacia"; "cs_ish"] gi world0 = (Ok sel, world0) /\
    writes_layer (files world0) (files (snd (run0 (AggSeq ["mean"])))) "in.gpkg"
      (String.append "agg_" (splitext_root (basename pg)))
      (let pres_p := set_col cells "area_apresent_km2"
                       (fun r => Some (km2 cells cells_area (geom r))) gp in
       aggregate_core cells cells_area "id_apresent" (normalize_aggs (AggSeq ["mean"])) pres_p
         (cells_overlay pres_p sel))).
Proof.
  assert (H : aggregate_presentation_gpkg cells cells_area cells_overlay "in.gpkg" "regiao_completa"
                (Some "mun.gpkg") None "id_apresent" (AggSeq ["mean"]) None world0
              = (Ok "in.gpkg", snd (run0 (AggSeq ["mean"])))) by (vm_compute; reflexivity).
  split; [exact H|].
  exact (run_writes_output_layer cells cells_area cells_overlay "in.gpkg" "regiao_completa"
           (Some "mun.gpkg") None "id_apresent" (AggSeq ["mean"]) None world0
           (snd (run0 (AggSeq ["mean"]))) "in.gpkg" H).
Defined.

(** ** Rows of the result: one per presentation unit *)

Lemma list_ascii_of_string_append (c t : string) :
  list_ascii_of_string (String.append c t) = list_ascii_of_string c ++ list_ascii_of_string t.
Proof. induction c as [|a c IH]; cbn; [reflexivity | rewrite IH; reflexivity]. Qed.

Lemma lprefix_app (p q : list ascii) : lprefix p (p ++ q) = true.
Proof. induction p as [|a p IH]; cbn; [reflexivity | rewrite Ascii.eqb_refl, IH; reflexivity]. Qed.

Lemma ends_with_append (c t : string) : ends_with t (String.append c t) = true.
Proof. unfold ends_with. rewrite list_ascii_of_string_append, rev_app_distr. apply lprefix_app. Qed.

Lemma prefix_append (p s t : string) :
  String.prefix p s = true -> String.prefix p (String.append s t) = true.
Proof.
  revert p. induction s as [|b s IH]; intros p H; destruct p as [|a p]; cbn in H |- *.
  - destruct t; reflexivity.
  - discriminate H.
  - reflexivity.
  - destruct (ascii_dec a b); [exact (IH p H) | discriminate H].
Qed.

Lemma reserved_name_append (s t : string) :
  reserved_name s = true -> reserved_name (String.append s t) = true.
Proof.
  unfold reserved_name. intros H. apply orb_true_iff in H as [H|H];
    apply orb_true_iff; [left|right]; apply prefix_append; exact H.
Qed.

Lemma reserved_name_neq (s k : string) :
  reserved k = false -> reserved_name s = true -> s <> k.
Proof.
  unfold reserved. intros Hk Hs ->. rewrite Hs in Hk. discriminate Hk.
Qed.

Lemma agg_col_reserved (a : string) : reserved_name (agg_col a) = true.
Proof. destruct a; reflexivity. Qed.

(** No requested column is the [_x] or [_y] renaming of another column. *)
Lemma agg_col_not_suffixed (a c : string) : In a SUPPORTED_AGGS ->
  String.append c "_x" <> agg_col a /\ String.append c "_y" <> agg_col a.
Proof.
  intros Ha. split; intros H;
  [pose proof (ends_with_append c "_x") as E | pose proof (ends_with_append c "_y") as E];
  rewrite H in E; simpl in Ha;
  destruct Ha as [<-|[<-|[<-|[<-|[]]]]]; discriminate E.
Qed.

Lemma assoc_put_same (c : string) (v : cell) xs : assoc c (put c v xs) = Some v.
Proof.
  induction xs as [|[c' v'] t IH]; cbn; [rewrite String.eqb_refl; reflexivity|].
  destruct (String.eqb c c') eqn:E; cbn; [rewrite String.eqb_refl; reflexivity|].
  rewrite E. exact IH.
Qed.

Lemma assoc_put_other (c c' : string) (v : cell) xs :
  c' <> c -> assoc c' (put c v xs) = assoc c' xs.
Proof.
  intros Hne. apply String.eqb_neq in Hne.
  induction xs as [|[c1 v1] t IH]; cbn; [rewrite Hne; reflexivity|].
  destruct (String.eqb c c1) eqn:E; cbn.
  - apply String.eqb_eq in E. subst c1. rewrite Hne. reflexivity.
  - rewrite IH. reflexivity.
Qed.

Lemma get_put_same (c : string) (v : cell) xs : get (put c v xs) c = v.
Proof. unfold get. rewrite assoc_put_same. reflexivity. Qed.

Lemma get_put_other (c c' : string) (v : cell) xs : c' <> c -> get (put c v xs) c' = get xs c'.
Proof. intros H. unfold get. rewrite assoc_put_other by exact H. reflexivity. Qed.

(** Looking a name up after renaming every column with [f]. *)
Lemma assoc_rename (f : string -> string) (c : string) (xs : list (string * cell)) :
  (forall c', f c' = c -> c' = c) ->
  assoc c (map (fun p => (f (fst p), snd p)) xs) = if String.eqb (f c) c then assoc c xs else None.
Proof.
  intros Hf. induction xs as [|[c1 v1] t IH]; cbn [map fst snd assoc].
  - destruct (String.eqb (f c) c); reflexivity.
  - rewrite IH. destruct (String.eqb c (f c1)) eqn:E1.
    + apply String.eqb_eq in E1. symmetry in E1. pose proof (Hf c1 E1) as ->.
      rewrite E1, !String.eqb_refl. reflexivity.
    + destruct (String.eqb (f c) c) eqn:E2; [|reflexivity].
      destruct (String.eqb c c1) eqn:E3; [|reflexivity].
      apply String.eqb_eq in E2, E3. subst c1. rewrite E2, String.eqb_refl in E1. discriminate E1.
Qed.

Lemma get_app (xs ys : list (string * cell)) (c : string) :
  get (xs ++ ys) c = match assoc c xs with Some v => v | None => get ys c end.
Proof.
  unfold get. induction xs as [|[c1 v1] t IH]; cbn; [reflexivity|].
  destruct (String.eqb c c1); [reflexivity | exact IH].
Qed.

Lemma get_map_absent {A : Type} (h : A -> string) (v : A -> cell) (cs : list A) (x : string) :
  (forall c, In c cs -> h c <> x) -> get (map (fun c => (h c, v c)) cs) x = None.
Proof.
  induction cs as [|c t IH]; intros Hh; [reflexivity|].
  unfold get. cbn. destruct (String.eqb x (h c)) eqn:E.
  - apply String.eqb_eq in E. exfalso. exact (Hh c (or_introl eq_refl) (eq_sym E)).
  - apply IH. intros c' Hc'. exact (Hh c' (or_intror Hc')).
Qed.

Lemma has_col_In (cols : list string) (c : string) : has_col cols c = true -> In c cols.
Proof. intros H. apply (proj1 (mem_In c cols)). exact H. Qed.

Lemma lname_k (k : string) lcols rcols : lname k lcols rcols k = k.
Proof. unfold lname, overlaps. rewrite String.eqb_refl. reflexivity. Qed.

Lemma lname_to_k (k : string) lcols rcols c :
  reserved k = false -> table_ok k rcols -> lname k lcols rcols c = k -> c = k.
Proof.
  unfold lname, overlaps. intros Hk Hok.
  destruct (negb (String.eqb c k) && has_col lcols c && has_col rcols c) eqn:E; [|tauto].
  intros H. exfalso. apply andb_true_iff in E as [E Hr]. apply andb_true_iff in E as [Hn _].
  destruct (Hok c (has_col_In _ _ Hr)) as [->|Hres].
  - rewrite String.eqb_refl in Hn. discriminate Hn.
  - exact (reserved_name_neq _ k Hk (reserved_name_append c "_x" Hres) H).
Qed.

Lemma rname_not_k (k : string) lcols rcols c :
  reserved k = false -> table_ok k rcols -> In c rcols -> c <> k -> rname k lcols rcols c <> k.
Proof.
  intros Hk Hok Hc Hck. destruct (Hok c Hc) as [|Hres]; [contradiction|].
  unfold rname. destruct (overlaps k lcols rcols c).
  - exact (reserved_name_neq _ k Hk (reserved_name_append c "_y" Hres)).
  - exact (reserved_name_neq _ k Hk Hres).
Qed.

Lemma merged_attrs_key (k : string) lcols (r : table) (xs : list (string * cell)) (v : string -> cell) :
  reserved k = false -> table_ok k (tcols r) ->
  get (map (fun p => (lname k lcols (tcols r) (fst p), snd p)) xs
       ++ map (fun c => (rname k lcols (tcols r) c, v c))
              (filter (fun c => negb (String.eqb c k)) (tcols r))) k = get xs k.
Proof.
  intros Hk Hok. rewrite get_app.
  rewrite assoc_rename by (intros c'; apply lname_to_k; assumption).
  rewrite lname_k, String.eqb_refl. unfold get at 2. destruct (assoc k xs); [reflexivity|].
  apply get_map_absent. intros c Hc. apply filter_In in Hc as [Hc Hn].
  apply rname_not_k; try assumption.
  intros ->. rewrite String.eqb_refl in Hn. discriminate Hn.
Qed.

Lemma merge_row_key {G : Type} (k : string) lcols (r : table) (lr o : row G) :
  reserved k = false -> table_ok k (tcols r) ->
  In o (merge_row G k lcols r lr) -> get (attrs o) k = get (attrs lr) k.
Proof.
  intros Hk Hok. unfold merge_row.
  destruct (filter (fun rr => cell_eqb (get (attrs lr) k) (get rr k)) (trows r)) as [|rr ms].
  - intros [<-|[]]. cbn [attrs]. apply (merged_attrs_key k lcols r (attrs lr) (fun _ => None)); assumption.
  - intros Ho. apply in_map_iff in Ho as (rr' & <- & _). cbn [attrs].
    apply (merged_attrs_key k lcols r (attrs lr) (fun c => get rr' c)); assumption.
Qed.

(** *** Group keys are distinct *)

Lemma In_insert_Q (x z : Q) (l : list Q) : In z (insert_Q x l) <-> x = z \/ In z l.
Proof.
  induction l as [|y t IH]; cbn; [tauto|].
  destruct (Qle_bool x y); cbn; [tauto|]. rewrite IH. tauto.
Qed.

Lemma In_sort_Q (z : Q) (l : list Q) : In z (sort_Q l) <-> In z l.
Proof.
  induction l as [|x t IH]; cbn; [tauto|].
  rewrite In_insert_Q, IH. reflexivity.
Qed.

Lemma InA_insert_Q (x z : Q) (l : list Q) : InA Qeq z (insert_Q x l) <-> InA Qeq z (x :: l).
Proof.
  rewrite !InA_alt. split; intros (y & Hz & Hy); exists y; split; try exact Hz.
  - apply In_insert_Q in Hy as [->|Hy]; [left; reflexivity | right; exact Hy].
  - apply In_insert_Q. destruct Hy as [->|Hy]; [left; reflexivity | right; exact Hy].
Qed.

Lemma NoDupA_insert_Q (x : Q) (l : list Q) :
  ~ InA Qeq x l -> NoDupA Qeq l -> NoDupA Qeq (insert_Q x l).
Proof.
  induction l as [|y t IH]; intros Hx Hl; cbn.
  - constructor; [intros H; inversion H | constructor].
  - inversion Hl as [|y' t' Hy Ht]; subst.
    destruct (Qle_bool x y).
    + constructor; [exact Hx | exact Hl].
    + constructor.
      * rewrite InA_insert_Q. intros H. inversion H as [? ? Hyx|? ? Hyt]; subst.
        -- apply Hx. left. symmetry. exact Hyx.
        -- exact (Hy Hyt).
      * apply IH; [intros H; apply Hx; right; exact H | exact Ht].
Qed.

Lemma NoDupA_sort_Q (l : list Q) : NoDupA Qeq l -> NoDupA Qeq (sort_Q l).
Proof.
  induction l as [|x t IH]; intros Hl; cbn; [constructor|].
  inversion Hl as [|x' t' Hx Ht]; subst. apply NoDupA_insert_Q; [|exact (IH Ht)].
  rewrite InA_alt. intros (y & Hxy & Hy). apply Hx. rewrite InA_alt.
  exists y. split; [exact Hxy|]. apply In_sort_Q. exact Hy.
Qed.

Lemma In_dedup_Q (z : Q) (l : list Q) : In z (dedup_Q l) -> In z l.
Proof.
  induction l as [|x t IH]; cbn; [tauto|].
  destruct (existsb (Qeq_bool x) t); [intros H; right; exact (IH H)|].
  intros [H|H]; [left; exact H | right; exact (IH H)].
Qed.

Lemma NoDupA_dedup_Q (l : list Q) : NoDupA Qeq (dedup_Q l).
Proof.
  induction l as [|x t IH]; cbn; [constructor|].
  destruct (existsb (Qeq_bool x) t) eqn:E; [exact IH|].
  constructor; [|exact IH].
  rewrite InA_alt. intros (y & Hxy & Hy). apply In_dedup_Q in Hy.
  assert (Hb : existsb (Qeq_bool x) t = true).
  { apply existsb_exists. exists y. split; [exact Hy | apply Qeq_bool_iff; exact Hxy]. }
  rewrite Hb in E. discriminate E.
Qed.

Lemma group_keys_NoDupA {G : Type} (k : string) (rs : list (row G)) :
  NoDupA Qeq (group_keys G k rs).
Proof. unfold group_keys. apply NoDupA_sort_Q, NoDupA_dedup_Q. Qed.

Lemma group_keys_In {G : Type} (k : string) (rs : list (row G)) (q : Q) :
  In q (group_keys G k rs) -> exists r, In r rs /\ get (attrs r) k = Some q.
Proof.
  unfold group_keys. intros H. apply In_sort_Q, In_dedup_Q, in_flat_map in H as (r & Hr & Hq).
  exists r. split; [exact Hr|]. destruct (get (attrs r) k) as [q'|]; [|destruct Hq].
  destruct Hq as [<-|[]]. reflexivity.
Qed.

Lemma filter_keys_le1 (x : cell) (ks : list Q) :
  NoDupA Qeq ks -> (length (filter (fun q => cell_eqb x (Some q)) ks) <= 1)%nat.
Proof.
  destruct x as [p|]; [|intros _; induction ks; cbn; [lia | exact IHks]].
  cbn [cell_eqb]. induction ks as [|q t IH]; intros Hn; cbn [filter]; [cbn; lia|].
  inversion Hn as [|q' t' Hq Ht]; subst.
  destruct (Qeq_bool p q) eqn:E; [|exact (IH Ht)].
  assert (Hnil : filter (fun q0 => Qeq_bool p q0) t = []).
  { apply Qeq_bool_iff in E.
    destruct (filter (fun q0 => Qeq_bool p q0) t) as [|z zs] eqn:F; [reflexivity|].
    exfalso. assert (Hz : In z (filter (fun q0 => Qeq_bool p q0) t))
      by (rewrite F; left; reflexivity).
    apply filter_In in Hz as [Hz Hpz]. apply Qeq_bool_iff in Hpz.
    apply Hq. rewrite InA_alt. exists z. split; [|exact Hz].
    rewrite <- E. exact Hpz. }
  rewrite Hnil. cbn. lia.
Qed.

(** *** Tracking a presentation row through the steps *)

Lemma get_put_none (c c' : string) xs :
  get (put c None xs) c' = if String.eqb c' c then None else get xs c'.
Proof.
  destruct (String.eqb c' c) eqn:E.
  - apply String.eqb_eq in E. subst. apply get_put_same.
  - apply get_put_other. apply String.eqb_neq. exact E.
Qed.

Lemma get_map_none {A : Type} (h : A -> string) (cs : list A) (x : string) :
  get (map (fun c => (h c, None)) cs) x = None.
Proof.
  unfold get. induction cs as [|c t IH]; cbn; [reflexivity|].
  destruct (String.eqb x (h c)); [reflexivity | exact IH].
Qed.

Lemma cell_eqb_sym (a b : cell) : cell_eqb a b = cell_eqb b a.
Proof.
  destruct a as [x|], b as [y|]; cbn; try reflexivity.
  destruct (Qeq_bool x y) eqn:E1, (Qeq_bool y x) eqn:E2; try reflexivity.
  - apply Qeq_bool_iff in E1. apply Qeq_sym, Qeq_bool_iff in E1. congruence.
  - apply Qeq_bool_iff in E2. apply Qeq_sym, Qeq_bool_iff in E2. congruence.
Qed.

Lemma Forall2_map_right {A B C : Type} (R : A -> C -> Prop) (f : B -> C) xs ys :
  Forall2 (fun x y => R x (f y)) xs ys -> Forall2 R xs (map f ys).
Proof. induction 1; constructor; assumption. Qed.

Lemma set_col_nan_rel {G : Type} k aggs (U : row G -> Prop) (c : string) ps (f : frame G) :
  c <> k -> Forall2 (unit_rel k aggs U) ps (frows f) ->
  Forall2 (unit_rel k aggs U) ps (frows (set_col G c (fun _ => None) f)).
Proof.
  intros Hc H. cbn [set_col frows]. apply Forall2_map_right.
  refine (Forall2_impl _ _ H). intros p o [Hk Hn]. split.
  - cbn [attrs]. rewrite get_put_other by (intros E; apply Hc; symmetry; exact E). exact Hk.
  - intros Hu a Ha. cbn [attrs]. rewrite get_put_none.
    destruct (String.eqb (agg_col a) c); [reflexivity | exact (Hn Hu a Ha)].
Qed.

Lemma filter_recs_length (x : cell) (k n : string) (F : Q -> cell) (ks : list Q) :
  length (filter (fun rr => cell_eqb x (get rr k)) (map (fun q => [(k, Some q); (n, F q)]) ks))
  = length (filter (fun q => cell_eqb x (Some q)) ks).
Proof.
  induction ks as [|q t IH]; [reflexivity|].
  cbn [map filter]. unfold get at 1. cbn [assoc]. rewrite String.eqb_refl.
  destruct (cell_eqb x (Some q)); cbn [length]; rewrite IH; reflexivity.
Qed.

Lemma merged_attrs_nan (k : string) lcols rcols xs (cs : list string) (a : string) :
  In a SUPPORTED_AGGS -> get xs (agg_col a) = None ->
  get (map (fun p => (lname k lcols rcols (fst p), snd p)) xs
       ++ map (fun c => (rname k lcols rcols c, None)) cs) (agg_col a) = None.
Proof.
  intros Ha Hx. rewrite get_app.
  rewrite assoc_rename.
  - destruct (String.eqb (lname k lcols rcols (agg_col a)) (agg_col a)).
    + unfold get in Hx. destruct (assoc (agg_col a) xs); [exact Hx | apply get_map_none].
    + apply get_map_none.
  - intros c'. unfold lname. destruct (overlaps k lcols rcols c'); [|tauto].
    intros E. exfalso. exact (proj1 (agg_col_not_suffixed a c' Ha) E).
Qed.

(** Merging a group-by result keyed by distinct [ks] keeps one output row
    per left row, and a row matching no key gets NaN on the right. *)
Lemma merge_group_rel {G : Type} k aggs (U : row G -> Prop) (n : string) (ks : list Q)
    (F : Q -> cell) ps (l : frame G) :
  reserved k = false -> reserved_name n = true -> NoDupA Qeq ks ->
  (forall a, In a aggs -> In a SUPPORTED_AGGS) ->
  (forall p, U p -> forall q, In q ks -> cell_eqb (get (attrs p) k) (Some q) = false) ->
  Forall2 (unit_rel k aggs U) ps (frows l) ->
  Forall2 (unit_rel k aggs U) ps
    (frows (merge_left G k l (mkTable [k; n] (map (fun q => [(k, Some q); (n, F q)]) ks)))).
Proof.
  intros Hk Hn Hks Haggs HU H. cbn [merge_left frows].
  assert (Hok : table_ok k (tcols (mkTable [k; n] (map (fun q => [(k, Some q); (n, F q)]) ks)))).
  { intros c [<-|[<-|[]]]; [left; reflexivity | right; exact Hn]. }
  induction H as [|p lr ps lrs Hr H IH]; [constructor|].
  cbn [flat_map].
  assert (Hlen := filter_keys_le1 (get (attrs lr) k) ks Hks).
  rewrite <- (filter_recs_length _ k n F) in Hlen.
  unfold merge_row at 1.
  destruct (filter (fun rr => cell_eqb (get (attrs lr) k) (get rr k))
              (trows (mkTable [k; n] (map (fun q => [(k, Some q); (n, F q)]) ks))))
    as [|rr [|rr2 ms]] eqn:Ef.
  - cbn [app]. constructor; [|exact IH]. destruct Hr as [Hrk Hrn]. split.
    + cbn [attrs]. rewrite (merged_attrs_key k _ _ (attrs lr) (fun _ => None) Hk Hok). exact Hrk.
    + intros Hu a Ha. cbn [attrs]. apply merged_attrs_nan; [exact (Haggs a Ha) | exact (Hrn Hu a Ha)].
  - cbn [map app]. constructor; [|exact IH]. destruct Hr as [Hrk Hrn]. split.
    + cbn [attrs]. rewrite (merged_attrs_key k _ _ (attrs lr) (fun c => get rr c) Hk Hok). exact Hrk.
    + intros Hu. exfalso.
      assert (Hin : In rr (filter (fun rr => cell_eqb (get (attrs lr) k) (get rr k))
                        (map (fun q => [(k, Some q); (n, F q)]) ks)))
        by (cbn [trows] in Ef; rewrite Ef; left; reflexivity).
      apply filter_In in Hin as [Hin Hm]. apply in_map_iff in Hin as (q & <- & Hq).
      unfold get at 2 in Hm. cbn [assoc] in Hm. rewrite String.eqb_refl in Hm.
      rewrite Hrk in Hm. rewrite (HU p Hu q Hq) in Hm. discriminate Hm.
  - exfalso. cbn [trows] in Ef. rewrite Ef in Hlen. cbn in Hlen. lia.
Qed.

Lemma keys_avoid_set_col {G : Type} k (U : row G -> Prop) (c : string) g (f : frame G) :
  c <> k -> keys_avoid k U (frows f) -> keys_avoid k U (frows (set_col G c g f)).
Proof.
  intros Hc H p Hu r Hr. cbn [set_col frows] in Hr. apply in_map_iff in Hr as (r0 & <- & Hr0).
  cbn [attrs]. rewrite get_put_other by (intros E; apply Hc; symmetry; exact E).
  exact (H p Hu r0 Hr0).
Qed.

Lemma keys_avoid_merge {G : Type} k (U : row G -> Prop) (l : frame G) (t : table) :
  reserved k = false -> table_ok k (tcols t) ->
  keys_avoid k U (frows l) -> keys_avoid k U (frows (merge_left G k l t)).
Proof.
  intros Hk Hok H p Hu r Hr. cbn [merge_left frows] in Hr.
  apply in_flat_map in Hr as (lr & Hlr & Hr).
  rewrite (merge_row_key k _ t lr r Hk Hok Hr). exact (H p Hu lr Hlr).
Qed.

Lemma keys_avoid_group {G : Type} k (U : row G -> Prop) (rs : list (row G)) :
  keys_avoid k U rs ->
  forall p, U p -> forall q, In q (group_keys G k rs) -> cell_eqb (get (attrs p) k) (Some q) = false.
Proof.
  intros H p Hu q Hq. apply group_keys_In in Hq as (r & Hr & Hrq).
  rewrite <- Hrq. exact (H p Hu r Hr).
Qed.

Lemma fold_left_preserves {A B : Type} (P : A -> Prop) (step : A -> B -> A) (bs : list B) (x : A) :
  (forall y b, In b bs -> P y -> P (step y b)) -> P x -> P (fold_left step bs x).
Proof.
  revert x. induction bs as [|b t IH]; intros x Hs Hx; cbn [fold_left]; [exact Hx|].
  apply IH; [intros y b' Hb; apply Hs; right; exact Hb | apply Hs; [left; reflexivity | exact Hx]].
Qed.

Lemma init_columns_rel {G : Type} k aggs (U : row G -> Prop) (pres : frame G) :
  reserved k = false ->
  Forall2 (unit_rel k aggs U) (frows pres) (frows (init_columns G aggs pres)).
Proof.
  intros Hk. unfold init_columns.
  assert (Hgen : forall bs f,
    Forall2 (fun p o => get (attrs o) k = get (attrs p) k /\
               forall a, In a aggs -> ~ In a bs -> get (attrs o) (agg_col a) = None)
      (frows pres) (frows f) ->
    Forall2 (unit_rel k aggs U) (frows pres)
      (frows (fold_left (fun f a => set_col G (agg_col a) (fun _ => None) f) bs f))).
  { induction bs as [|b t IH]; intros f H; cbn [fold_left].
    - refine (Forall2_impl _ _ H). intros p o [H1 H2]. split; [exact H1|].
      intros _ a Ha. exact (H2 a Ha (fun x => x)).
    - apply IH. cbn [set_col frows]. apply Forall2_map_right.
      refine (Forall2_impl _ _ H). intros p o [H1 H2]. cbn [attrs]. split.
      + rewrite get_put_other; [exact H1|].
        intros E. apply (reserved_name_neq (agg_col b) k Hk (agg_col_reserved b)).
        symmetry; exact E.
      + intros a Ha Hn. rewrite get_put_none.
        destruct (String.eqb (agg_col a) (agg_col b)) eqn:E; [reflexivity|].
        apply H2; [exact Ha|]. intros [<-|Hin]; [rewrite String.eqb_refl in E; discriminate E|].
        exact (Hn Hin). }
  apply Hgen. clear Hgen. generalize (frows pres) as l.
  intros l; induction l as [|p ps IH]; constructor; [|exact IH].
  split; [reflexivity|]. intros a Ha Hn. exfalso. exact (Hn Ha).
Qed.

Lemma ensure_columns_rel {G : Type} k aggs (U : row G -> Prop) ps (f : frame G) :
  reserved k = false ->
  Forall2 (unit_rel k aggs U) ps (frows f) ->
  Forall2 (unit_rel k aggs U) ps (frows (ensure_columns G aggs f)).
Proof.
  intros Hk. unfold ensure_columns.
  apply (fold_left_preserves (fun f => Forall2 (unit_rel k aggs U) ps (frows f))).
  intros y b _ Hy. destruct (has_col (fcols y) (agg_col b)); [exact Hy|].
  apply set_col_nan_rel; [|exact Hy].
  exact (reserved_name_neq _ k Hk (agg_col_reserved b)).
Qed.

Lemma weighted_neq (k : string) : reserved k = false -> "weighted" <> k.
Proof.
  unfold reserved. intros Hk <-. rewrite String.eqb_refl, orb_true_r in Hk. discriminate Hk.
Qed.

Section Steps.
Variable G : Type.
Variables (k : string) (aggs : list string) (U : row G -> Prop).
Hypothesis Hk : reserved k = false.
Hypothesis Haggs : forall a, In a aggs -> In a SUPPORTED_AGGS.

Lemma mean_step_rel (ps : list (row G)) (inter result : frame G) :
  keys_avoid k U (frows inter) -> Forall2 (unit_rel k aggs U) ps (frows result) ->
  keys_avoid k U (frows (fst (mean_step G k aggs inter result))) /\
  Forall2 (unit_rel k aggs U) ps (frows (snd (mean_step G k aggs inter result))).
Proof.
  intros Hi Hr. unfold mean_step. destruct (mem "mean" aggs); cbn [fst snd]; [|tauto].
  assert (Hi' := keys_avoid_set_col k U "weighted"
    (fun r => cmul (fillna0 (get (attrs r) "cs_ish"))
                   (cdiv (get (attrs r) "area_inter_km2") (get (attrs r) "area_apresent_km2")))
    inter (weighted_neq k Hk) Hi).
  split; [exact Hi'|].
  unfold group_table, group_records.
  apply merge_group_rel; try assumption; [reflexivity | apply group_keys_NoDupA |].
  apply keys_avoid_group. exact Hi'.
Qed.

Lemma median_step_rel (ps : list (row G)) (inter result : frame G) :
  keys_avoid k U (frows inter) -> Forall2 (unit_rel k aggs U) ps (frows result) ->
  Forall2 (unit_rel k aggs U) ps (frows (median_step G k aggs inter result)).
Proof.
  intros Hi Hr. unfold median_step. destruct (mem "median" aggs); [|exact Hr].
  destruct (group_records G k "cs_ish_median"
              (fun grp => _weighted_median (column G "cs_ish" grp) (weights_of G grp))
              (frows inter)) as [|rc rcs] eqn:E.
  - apply set_col_nan_rel; [|exact Hr]. exact (reserved_name_neq "cs_ish_median" k Hk eq_refl).
  - rewrite <- E. unfold group_records.
    apply merge_group_rel; try assumption; [reflexivity | apply group_keys_NoDupA |].
    apply keys_avoid_group. exact Hi.
Qed.

Lemma max_step_rel (ps : list (row G)) (inter result : frame G) :
  keys_avoid k U (frows inter) -> Forall2 (unit_rel k aggs U) ps (frows result) ->
  Forall2 (unit_rel k aggs U) ps (frows (max_step G k aggs inter result)).
Proof.
  intros Hi Hr. unfold max_step. destruct (mem "max" aggs); [|exact Hr].
  unfold group_table, group_records.
  apply merge_group_rel; try assumption; [reflexivity | apply group_keys_NoDupA |].
  apply keys_avoid_group. exact Hi.
Qed.

Lemma min_step_rel (ps : list (row G)) (inter result : frame G) :
  keys_avoid k U (frows inter) -> Forall2 (unit_rel k aggs U) ps (frows result) ->
  Forall2 (unit_rel k aggs U) ps (frows (min_step G k aggs inter result)).
Proof.
  intros Hi Hr. unfold min_step. destruct (mem "min" aggs); [|exact Hr].
  unfold group_table, group_records.
  apply merge_group_rel; try assumption; [reflexivity | apply group_keys_NoDupA |].
  apply keys_avoid_group. exact Hi.
Qed.

End Steps.

Lemma keys_avoid_no_intersection {G : Type} k (inter : frame G) :
  keys_avoid k (fun p => no_intersection k inter p = true) (frows inter).
Proof.
  intros p Hp r Hr. unfold no_intersection in Hp. rewrite forallb_forall in Hp.
  specialize (Hp r Hr). rewrite cell_eqb_sym. destruct (cell_eqb (get (attrs r) k) (get (attrs p) k));
  [discriminate Hp | reflexivity].
Qed.

(** ** One row per presentation unit

    Claim C3.  For an id column that is not one of the names the code
    creates itself ([cs_ish_*], [area_*], [weighted]) and supported
    aggregations, [result_pres] has exactly one row per row of the
    projected presentation layer, in order and with the same id; a unit
    without intersection record gets NaN in every requested column, and
    when the overlay is empty every row does. *)
Theorem one_row_per_unit_nulls_without_intersection {G : Type} (area : G -> Q)
    (k : string) (aggs : list string) (pres_p inter : frame G) :
  reserved k = false -> (forall a, In a aggs -> In a SUPPORTED_AGGS) ->
  Forall2 (unit_rel k aggs (fun p => no_intersection k inter p = true))
    (frows pres_p) (frows (aggregate_core G area k aggs pres_p inter)) /\
  (frows inter = [] -> forall o, In o (frows (aggregate_core G area k aggs pres_p inter)) ->
     forall a, In a aggs -> get (attrs o) (agg_col a) = None).
Proof.
  intros Hk Haggs.
  set (U := fun p : row G => no_intersection k inter p = true).
  assert (Hmain : Forall2 (unit_rel k aggs U) (frows pres_p)
                    (frows (aggregate_core G area k aggs pres_p inter))).
  { unfold aggregate_core.
    assert (H0 := init_columns_rel k aggs U pres_p Hk).
    destruct (frows inter) as [|r0 rs0] eqn:Einter; [exact H0|].
    assert (Hi0 : keys_avoid k U (frows inter)) by apply keys_avoid_no_intersection.
    assert (Hi1 := keys_avoid_set_col k U "area_inter_km2" (fun r => Some (km2 G area (geom r)))
                     inter (reserved_name_neq "area_inter_km2" k Hk eq_refl) Hi0).
    set (inter1 := set_col G "area_inter_km2" (fun r => Some (km2 G area (geom r))) inter) in *.
    assert (Hi2 : keys_avoid k U (frows (if has_col (fcols inter1) "area_apresent_km2" then inter1
                   else merge_left G k inter1 (to_table G [k; "area_apresent_km2"] pres_p)))).
    { destruct (has_col (fcols inter1) "area_apresent_km2"); [exact Hi1|].
      apply keys_avoid_merge; [exact Hk | | exact Hi1].
      intros c [<-|[<-|[]]]; [left; reflexivity | right; reflexivity]. }
    set (inter2 := if has_col (fcols inter1) "area_apresent_km2" then inter1
                   else merge_left G k inter1 (to_table G [k; "area_apresent_km2"] pres_p)) in *.
    destruct (mean_step_rel G k aggs U Hk Haggs _ inter2 _ Hi2 H0) as [Hi3 H1].
    destruct (mean_step G k aggs inter2 (init_columns G aggs pres_p)) as [inter3 result1].
    cbn [fst snd] in Hi3, H1.
    apply ensure_columns_rel; [exact Hk|].
    apply (min_step_rel G k aggs U Hk Haggs); [exact Hi3|].
    apply (max_step_rel G k aggs U Hk Haggs); [exact Hi3|].
    apply (median_step_rel G k aggs U Hk Haggs); [exact Hi3 | exact H1]. }
  split; [exact Hmain|].
  intros Hnil o Ho a Ha.
  assert (Hall : forall p, U p) by (intros p; unfold U, no_intersection; rewrite Hnil; reflexivity).
  revert Hmain Ho. generalize (frows pres_p) (frows (aggregate_core G area k aggs pres_p inter)).
  intros ps os HF. induction HF as [|p o' ps os [_ Hn] HF IH]; [intros []|].
  intros [<-|Ho]; [exact (Hn (Hall p) a Ha) | exact (IH Ho)].
Qed.

Lemma one_row_per_unit_nulls_without_intersection_witness :
  reserved "id_apresent" = false /\
  (forall a, In a ["mean"; "median"; "max"; "min"] -> In a SUPPORTED_AGGS) /\
  (Forall2 (unit_rel "id_apresent" ["mean"; "median"; "max"; "min"]
              (fun p => no_intersection "id_apresent" inter_zero_area p = true))
     (frows pres_p_pair)
     (frows (aggregate_core cells cells_area "id_apresent" ["mean"; "median"; "max"; "min"]
               pres_p_pair inter_zero_area)) /\
   (frows inter_zero_area = [] ->
    forall o, In o (frows (aggregate_core cells cells_area "id_apresent"
                              ["mean"; "median"; "max"; "min"] pres_p_pair inter_zero_area)) ->
    forall a, In a ["mean"; "median"; "max"; "min"] -> get (attrs o) (agg_col a) = None)).
Proof.
  assert (Hk : reserved "id_apresent" = false) by reflexivity.
  assert (Ha : forall a, In a ["mean"; "median"; "max"; "min"] -> In a SUPPORTED_AGGS)
    by (intros a H; exact H).
  split; [exact Hk|]. split; [exact Ha|].
  apply (one_row_per_unit_nulls_without_intersection cells_area); [exact Hk | exact Ha].
Defined.

(** ** [_weighted_median]: sorting, running sums and the weighted split *)

Lemma Permutation_insert_pair p l : Permutation (insert_pair p l) (p :: l).
Proof.
  induction l as [|q t IH]; cbn; [reflexivity|].
  destruct (Qle_bool (fst p) (fst q)); [reflexivity|].
  rewrite IH. apply perm_swap.
Qed.

Lemma Permutation_sort_pairs l : Permutation (sort_pairs l) l.
Proof.
  induction l as [|p t IH]; cbn; [reflexivity|].
  rewrite Permutation_insert_pair. apply perm_skip. exact IH.
Qed.

Lemma Sorted_insert_pair p l : Sorted fst_le l -> Sorted fst_le (insert_pair p l).
Proof.
  induction 1 as [|q t Ht IH Hh]; cbn; [repeat constructor|].
  destruct (Qle_bool (fst p) (fst q)) eqn:E.
  - constructor; [constructor; assumption|]. constructor. apply Qle_bool_iff. exact E.
  - assert (Hqp : fst q <= fst p).
    { apply Qlt_le_weak, Qnot_le_lt. intros H. apply Qle_bool_iff in H. congruence. }
    constructor; [exact IH|].
    destruct t as [|r t']; cbn; [constructor; exact Hqp|].
    inversion Hh; subst.
    destruct (Qle_bool (fst p) (fst r)); constructor; assumption.
Qed.

Lemma Sorted_sort_pairs l : Sorted fst_le (sort_pairs l).
Proof. induction l; cbn; [constructor | apply Sorted_insert_pair; assumption]. Qed.

Lemma StronglySorted_sort_pairs l : StronglySorted fst_le (sort_pairs l).
Proof.
  apply Sorted_StronglySorted; [|apply Sorted_sort_pairs].
  intros x y z H1 H2. exact (Qle_trans _ _ _ H1 H2).
Qed.

Lemma StronglySorted_split {A} (R : A -> A -> Prop) pre x post :
  StronglySorted R (pre ++ x :: post) ->
  Forall (fun y => R y x) pre /\ Forall (R x) post.
Proof.
  induction pre as [|y t IH]; cbn; intros H; inversion H as [|a b Hs Hf]; subst.
  - split; [constructor | exact Hf].
  - destruct (IH Hs) as [H1 H2]. split; [|exact H2]. constructor; [|exact H1].
    rewrite Forall_forall in Hf. apply Hf. apply in_or_app. right. left. reflexivity.
Qed.

Lemma sumQ_app l1 l2 : sumQ (l1 ++ l2) == sumQ l1 + sumQ l2.
Proof.
  unfold sumQ. induction l1 as [|x t IH]; cbn; [ring|]. rewrite IH. ring.
Qed.

Lemma sumQ_perm l1 l2 : Permutation l1 l2 -> sumQ l1 == sumQ l2.
Proof.
  induction 1; unfold sumQ in *; cbn; try reflexivity.
  - rewrite IHPermutation. reflexivity.
  - ring.
  - rewrite IHPermutation1. exact IHPermutation2.
Qed.

Lemma Permutation_filter_map {A} (f : A -> bool) l1 l2 :
  Permutation l1 l2 -> Permutation (filter f l1) (filter f l2).
Proof.
  induction 1; cbn; try reflexivity.
  - destruct (f x); [apply perm_skip|]; assumption.
  - destruct (f x), (f y); try reflexivity; try apply perm_swap; apply perm_skip; reflexivity.
  - etransitivity; eassumption.
Qed.

Lemma sumQ_nonneg l : Forall (Qle 0) l -> 0 <= sumQ l.
Proof.
  induction 1; unfold sumQ in *; cbn; [apply Qle_refl|].
  apply (Qle_trans _ (0 + 0)); [apply Qle_refl|]. apply Qplus_le_compat; assumption.
Qed.

Lemma sumQ_filter_le (f : Q * Q -> bool) l :
  Forall (fun p => 0 <= snd p) l -> sumQ (map snd (filter f l)) <= sumQ (map snd l).
Proof.
  induction 1 as [|p t Hp Ht IH]; cbn; [apply Qle_refl|].
  unfold sumQ in *. destruct (f p); cbn.
  - apply Qplus_le_compat; [apply Qle_refl | exact IH].
  - apply (Qle_trans _ (0 + fold_right Qplus 0 (map snd t))); [rewrite Qplus_0_l; exact IH|].
    apply Qplus_le_compat; [exact Hp | apply Qle_refl].
Qed.

Lemma sumQ_filter_all (f : Q * Q -> bool) l :
  Forall (fun p => f p = true) l -> sumQ (map snd (filter f l)) == sumQ (map snd l).
Proof.
  induction 1 as [|p t Hp Ht IH]; cbn; [reflexivity|]. rewrite Hp. unfold sumQ in *. cbn.
  rewrite IH. reflexivity.
Qed.

Lemma sumQ_filter_none (f : Q * Q -> bool) l :
  Forall (fun p => f p = false) l -> sumQ (map snd (filter f l)) == 0.
Proof.
  induction 1 as [|p t Hp Ht IH]; cbn; [reflexivity|]. rewrite Hp. exact IH.
Qed.

(* searchsorted on the running sums *)
Lemma searchsorted_cumsum (acc v : Q) (l : list Q) :
  acc < v ->
  acc + sumQ (firstn (searchsorted (cumsum_from acc l) v) l) < v /\
  ((searchsorted (cumsum_from acc l) v < length l)%nat ->
   v <= acc + sumQ (firstn (S (searchsorted (cumsum_from acc l) v)) l)).
Proof.
  revert acc. induction l as [|x t IH]; intros acc Hacc; cbn.
  - split; [rewrite Qplus_0_r; exact Hacc | intros H; lia].
  - destruct (Qle_bool v (acc + x)) eqn:E; cbn.
    + split; [rewrite Qplus_0_r; exact Hacc|]. intros _. unfold sumQ; cbn.
      apply Qle_bool_iff in E. rewrite Qplus_0_r. exact E.
    + assert (Hlt : acc + x < v).
      { apply Qnot_le_lt. intros H. apply Qle_bool_iff in H. congruence. }
      destruct (IH (acc + x) Hlt) as [H1 H2]. unfold sumQ in *; cbn. split.
      * rewrite Qplus_assoc. exact H1.
      * intros Hl. rewrite Qplus_assoc. apply H2. lia.
Qed.

Lemma weighted_pick (K : list (Q * Q)) :
  Forall (fun p => 0 <= snd p) K -> 0 < sumQ (map snd K) ->
  let srt := sort_pairs K in
  let cs := cumsum_from 0 (map snd srt) in
  let idx := searchsorted cs (sumQ (map snd srt) / 2) in
  let m := nth (Nat.min idx (Nat.sub (length (map fst srt)) 1)) (map fst srt) 0 in
  (exists w, In (m, w) K) /\
  sumQ (map snd (filter (fun p => negb (Qle_bool m (fst p))) K)) < sumQ (map snd K) / 2 /\
  sumQ (map snd K) / 2 <= sumQ (map snd (filter (fun p => Qle_bool (fst p) m) K)).
Proof.
  intros Hnn Hpos srt cs idx m.
  assert (Hperm : Permutation srt K) by apply Permutation_sort_pairs.
  assert (Htot : sumQ (map snd srt) == sumQ (map snd K))
    by (apply sumQ_perm, Permutation_map, Hperm).
  assert (Hcut : 0 < sumQ (map snd srt) / 2).
  { rewrite Htot. apply Qlt_shift_div_l; [reflexivity|]. rewrite Qmult_0_l. exact Hpos. }
  destruct (searchsorted_cumsum 0 (sumQ (map snd srt) / 2) (map snd srt) Hcut) as [H1 H2].
  fold cs idx in H1, H2.
  assert (Hidx : (idx < length srt)%nat).
  { destruct (Compare_dec.le_lt_dec (length srt) idx) as [H|H]; [|exact H]. exfalso.
    rewrite firstn_all2 in H1 by (rewrite length_map; exact H).
    rewrite Qplus_0_l in H1. revert H1. apply Qle_not_lt.
    apply Qle_shift_div_r; [reflexivity|].
    assert (0 <= sumQ (map snd srt)) by (rewrite Htot; apply Qlt_le_weak, Hpos).
    apply (Qle_trans _ (sumQ (map snd srt) * 1)); [rewrite Qmult_1_r; apply Qle_refl|].
    apply Qmult_le_l; [rewrite Htot; exact Hpos | discriminate]. }
  rewrite length_map in H2. specialize (H2 Hidx).
  assert (Hm : m = fst (nth idx srt (0, 0))).
  { unfold m. rewrite length_map. replace (Nat.min idx (Nat.sub (length srt) 1)) with idx by lia.
    apply (map_nth fst srt (0, 0) idx). }
  destruct (nth_split srt (0, 0) Hidx) as (pre & post & Hs & Hlen).
  set (x := nth idx srt (0, 0)) in *.
  assert (Hss := StronglySorted_sort_pairs K). fold srt in Hss. rewrite Hs in Hss.
  destruct (StronglySorted_split _ _ _ _ Hss) as [Hpre Hpost].
  assert (Hmap : map snd srt = map snd pre ++ snd x :: map snd post)
    by (rewrite Hs, map_app; reflexivity).
  assert (F1 : firstn idx (map snd srt) = map snd pre).
  { rewrite Hmap, <- Hlen, <- (length_map snd pre).
    rewrite <- (Nat.add_0_r (length (map snd pre))) at 1.
    rewrite firstn_app_2. apply app_nil_r. }
  assert (F2 : firstn (S idx) (map snd srt) = map snd pre ++ [snd x]).
  { rewrite Hmap, <- Hlen, <- (length_map snd pre).
    replace (S (length (map snd pre))) with (length (map snd pre) + 1)%nat by lia.
    rewrite firstn_app_2. reflexivity. }
  rewrite F1 in H1. rewrite F2 in H2. rewrite Qplus_0_l in H1, H2.
  rewrite sumQ_app in H2. unfold sumQ in H2 at 2. cbn in H2. rewrite Qplus_0_r in H2.
  assert (HnnS : Forall (fun p => 0 <= snd p) srt).
  { rewrite Forall_forall in *. intros p Hp. apply Hnn. exact (Permutation_in _ Hperm Hp). }
  rewrite Hs in HnnS. apply Forall_app in HnnS as [Hnpre Hnx]. inversion Hnx as [|a b Hxw Hnpost]; subst a b.
  split; [|split].
  - exists (snd x). rewrite Hm. apply (Permutation_in _ Hperm). unfold x.
    rewrite <- surjective_pairing. apply nth_In. exact Hidx.
  - rewrite <- Htot. eapply Qle_lt_trans; [|exact H1].
    rewrite <- (sumQ_perm _ _ (Permutation_map snd (Permutation_filter_map _ _ _ Hperm))).
    rewrite Hs, filter_app, map_app, sumQ_app. cbn [filter].
    assert (Hx : negb (Qle_bool m (fst x)) = false)
      by (rewrite Hm, (proj2 (Qle_bool_iff _ _) (Qle_refl _)); reflexivity).
    rewrite Hx.
    assert (Hnone : sumQ (map snd (filter (fun p => negb (Qle_bool m (fst p))) post)) == 0).
    { apply sumQ_filter_none. refine (Forall_impl _ _ Hpost). intros p Hp.
      rewrite Hm, (proj2 (Qle_bool_iff _ _) Hp). reflexivity. }
    rewrite Hnone, Qplus_0_r. apply sumQ_filter_le. exact Hnpre.
  - rewrite <- Htot. eapply Qle_trans; [exact H2|].
    rewrite <- (sumQ_perm _ _ (Permutation_map snd (Permutation_filter_map _ _ _ Hperm))).
    rewrite Hs, filter_app, map_app, sumQ_app. cbn [filter].
    assert (Hx : Qle_bool (fst x) m = true) by (rewrite Hm; apply Qle_bool_iff, Qle_refl).
    rewrite Hx.
    assert (Hall : sumQ (map snd (filter (fun p => Qle_bool (fst p) m) pre)) == sumQ (map snd pre)).
    { apply sumQ_filter_all. refine (Forall_impl _ _ Hpre). intros p Hp. rewrite Hm.
      apply Qle_bool_iff. exact Hp. }
    rewrite Hall.
    apply Qplus_le_compat; [apply Qle_refl|].
    rewrite <- (Qplus_0_r (snd x)) at 1. apply Qplus_le_compat; [apply Qle_refl|].
    apply sumQ_nonneg. apply Forall_map. rewrite Forall_forall in Hnpost |- *.
    intros p Hp. apply filter_In in Hp. exact (Hnpost p (proj1 Hp)).
Qed.

Lemma In_kept_pairs values weights v w :
  In (v, w) (kept_pairs values weights) -> In (Some v) values /\ In w weights.
Proof.
  unfold kept_pairs. intros H. apply in_flat_map in H as ([c w'] & Hc & Hin). cbn in Hin.
  destruct c as [v'|]; [|destruct Hin]. destruct Hin as [E|[]]. injection E as <- <-.
  split; [exact (in_combine_l _ _ _ _ Hc) | exact (in_combine_r _ _ _ _ Hc)].
Qed.

Lemma kept_pairs_nil values weights :
  length values = length weights ->
  kept_pairs values weights = [] <-> Forall (fun c => c = None) values.
Proof.
  unfold kept_pairs. revert weights. induction values as [|c t IH]; intros [|w ws] Hl;
    cbn in *; try discriminate; [split; constructor|].
  injection Hl as Hl. destruct c as [v|]; cbn.
  - split; [discriminate | intros H; inversion H; discriminate].
  - rewrite (IH ws Hl). split; [intros H; constructor; [reflexivity | exact H] | intros H; inversion H; assumption].
Qed.

Lemma Permutation_insert_Q x l : Permutation (insert_Q x l) (x :: l).
Proof.
  induction l as [|y t IH]; cbn; [reflexivity|].
  destruct (Qle_bool x y); [reflexivity|]. rewrite IH. apply perm_swap.
Qed.

Lemma Permutation_sort_Q l : Permutation (sort_Q l) l.
Proof.
  induction l as [|x t IH]; cbn; [reflexivity|].
  rewrite Permutation_insert_Q. apply perm_skip. exact IH.
Qed.

Lemma Sorted_insert_Q x l : Sorted Qle l -> Sorted Qle (insert_Q x l).
Proof.
  induction 1 as [|y t Ht IH Hh]; cbn; [repeat constructor|].
  destruct (Qle_bool x y) eqn:E.
  - constructor; [constructor; assumption|]. constructor. apply Qle_bool_iff. exact E.
  - assert (Hyx : y <= x).
    { apply Qlt_le_weak, Qnot_le_lt. intros H. apply Qle_bool_iff in H. congruence. }
    constructor; [exact IH|].
    destruct t as [|r t']; cbn; [constructor; exact Hyx|].
    inversion Hh; subst.
    destruct (Qle_bool x r); constructor; assumption.
Qed.

Lemma Sorted_sort_Q l : Sorted Qle (sort_Q l).
Proof. induction l; cbn; [constructor | apply Sorted_insert_Q; assumption]. Qed.

Lemma Sorted_nth_succ (l : list Q) (i : nat) :
  Sorted Qle l -> (S i < length l)%nat -> nth i l 0 <= nth (S i) l 0.
Proof.
  revert i. induction l as [|x t IH]; intros i Hs Hl; cbn in Hl; [lia|].
  inversion Hs as [|a b Hst Hh]; subst.
  destruct i as [|i].
  - destruct t as [|y t']; cbn in Hl; [lia|]. inversion Hh; subst. cbn. assumption.
  - cbn. apply IH; [exact Hst | lia].
Qed.

Lemma nanmedian_range (vs : list Q) :
  vs <> [] -> exists lo hi, In lo vs /\ In hi vs /\ lo <= nanmedian vs <= hi.
Proof.
  intros Hne. unfold nanmedian.
  set (s := sort_Q vs).
  assert (Hp : Permutation s vs) by apply Permutation_sort_Q.
  assert (Hlen : length s <> 0%nat).
  { rewrite (Permutation_length Hp). destruct vs; [contradiction | discriminate]. }
  destruct (Nat.odd (length s)) eqn:Eo.
  - set (v := nth (Nat.div (length s) 2) s 0).
    assert (Hv : In v vs).
    { apply (Permutation_in _ Hp). apply nth_In. apply Nat.div_lt; lia. }
    exists v, v. split; [exact Hv|]. split; [exact Hv|]. split; apply Qle_refl.
  - assert (H2 : (2 <= length s)%nat).
    { destruct (length s) as [|[|n]]; [contradiction | discriminate | lia]. }
    set (i := Nat.sub (Nat.div (length s) 2) 1).
    assert (Hi : Nat.div (length s) 2 = S i).
    { unfold i. assert (1 <= Nat.div (length s) 2)%nat.
      { apply (Nat.Div0.div_le_mono 2 (length s) 2); lia. } lia. }
    rewrite Hi.
    assert (Hlt : (S i < length s)%nat) by (rewrite <- Hi; apply Nat.div_lt; lia).
    assert (Hab := Sorted_nth_succ s i (Sorted_sort_Q vs) Hlt).
    exists (nth i s 0), (nth (S i) s 0).
    split; [apply (Permutation_in _ Hp), nth_In; lia|].
    split; [apply (Permutation_in _ Hp), nth_In; lia|].
    set (a := nth i s 0) in *. set (b := nth (S i) s 0) in *.
    split.
    + apply Qle_shift_div_l; [reflexivity|].
      apply (Qle_trans _ (a + a)); [ring_simplify; apply Qle_refl|].
      apply Qplus_le_compat; [apply Qle_refl | exact Hab].
    + apply Qle_shift_div_r; [reflexivity|].
      apply (Qle_trans _ (b + b)); [|ring_simplify; apply Qle_refl].
      apply Qplus_le_compat; [exact Hab | apply Qle_refl].
Qed.

Lemma weighted_median_cases values weights m :
  _weighted_median values weights = Some m ->
  let K := kept_pairs values weights in
  K <> [] /\
  ((Qeq_bool (sumQ (map snd K)) 0 = true /\ m = nanmedian (map fst K)) \/
   (Qeq_bool (sumQ (map snd K)) 0 = false /\
    m = nth (Nat.min (searchsorted (cumsum_from 0 (map snd (sort_pairs K)))
                                   (sumQ (map snd (sort_pairs K)) / 2))
                     (Nat.sub (length (map fst (sort_pairs K))) 1))
            (map fst (sort_pairs K)) 0)).
Proof.
  intros H K. unfold _weighted_median in H. destruct values as [|v0 vs]; [discriminate|].
  fold (kept_pairs (v0 :: vs) weights) in H. fold K in H.
  destruct K as [|p0 ps] eqn:EK; [discriminate|]. rewrite <- EK in H |- *.
  split; [rewrite EK; discriminate|].
  destruct (Qeq_bool (sumQ (map snd K)) 0) eqn:Ez; injection H as <-; [left | right]; tauto.
Qed.

(** [_weighted_median] (lines 45-52) returns NaN exactly when every value
    is NaN (an empty list included), for value and weight arrays of the
    same length as the caller passes them. *)
Theorem weighted_median_nan_iff_all_nan (values : list cell) (weights : list Q) :
  length values = length weights ->
  _weighted_median values weights = None <-> Forall (fun c => c = None) values.
Proof.
  intros Hl. rewrite <- (kept_pairs_nil values weights Hl).
  unfold _weighted_median. destruct values as [|v0 vs]; [split; reflexivity|].
  fold (kept_pairs (v0 :: vs) weights).
  destruct (kept_pairs (v0 :: vs) weights) as [|p0 ps]; [split; reflexivity|].
  split; [|discriminate]. destruct (Qeq_bool _ 0); discriminate.
Qed.

(** Whatever branch is taken, a value returned by [_weighted_median] lies
    between two of the non-NaN input values; the zero-weight fallback
    [np.nanmedian] may return the mean of the two middle values. *)
Theorem weighted_median_within_range (values : list cell) (weights : list Q) (m : Q) :
  _weighted_median values weights = Some m ->
  exists lo hi, In (Some lo) values /\ In (Some hi) values /\ lo <= m <= hi.
Proof.
  intros H. destruct (weighted_median_cases values weights m H) as [Hne [[_ Hm]|[_ Hm]]];
    set (K := kept_pairs values weights) in *.
  - assert (Hmk : map fst K <> []) by (destruct K; [contradiction | discriminate]).
    destruct (nanmedian_range _ Hmk) as (lo & hi & Hlo & Hhi & Hr). rewrite <- Hm in Hr.
    apply in_map_iff in Hlo as ([lo' wl] & <- & Hlo). apply in_map_iff in Hhi as ([hi' wh] & <- & Hhi).
    exists lo', hi'. split; [exact (proj1 (In_kept_pairs _ _ _ _ Hlo))|].
    split; [exact (proj1 (In_kept_pairs _ _ _ _ Hhi)) | exact Hr].
  - assert (Hin : In m (map fst (sort_pairs K))).
    { rewrite Hm. apply nth_In. rewrite length_map, (Permutation_length (Permutation_sort_pairs K)).
      destruct K; [contradiction|]. cbn. lia. }
    apply in_map_iff in Hin as ([m' w] & Em & Hin). cbn in Em. subst m'.
    apply (Permutation_in _ (Permutation_sort_pairs K)) in Hin.
    destruct (In_kept_pairs _ _ _ _ Hin) as [Hv _].
    exists m, m. split; [exact Hv|]. split; [exact Hv|]. split; apply Qle_refl.
Qed.

(** With non-negative weights whose non-NaN values carry a positive total
    weight [W], [_weighted_median] (lines 56-62) returns one of the values,
    [m], such that the values below [m] weigh less than [W/2] and the values
    up to [m] weigh at least [W/2]. *)
Theorem weighted_median_splits_weight (values : list cell) (weights : list Q) (m : Q) :
  (forall w, In w weights -> 0 <= w) ->
  0 < total_weight values weights ->
  _weighted_median values weights = Some m ->
  In (Some m) values /\
  weight_where (fun v => negb (Qle_bool m v)) values weights < total_weight values weights / 2 /\
  total_weight values weights / 2 <= weight_where (fun v => Qle_bool v m) values weights.
Proof.
  intros Hw Hpos H. unfold weight_where, total_weight in *.
  destruct (weighted_median_cases values weights m H) as [Hne [[Hz _]|[_ Hm]]];
    set (K := kept_pairs values weights) in *.
  - exfalso. apply Qeq_bool_iff in Hz. rewrite Hz in Hpos. discriminate Hpos.
  - assert (Hnn : Forall (fun p => 0 <= snd p) K).
    { apply Forall_forall. intros [v w] Hin. apply Hw. exact (proj2 (In_kept_pairs _ _ _ _ Hin)). }
    destruct (weighted_pick K Hnn Hpos) as [[w Hin] [H1 H2]]. cbv zeta in Hin, H1, H2.
    rewrite <- Hm in Hin, H1, H2.
    split; [exact (proj1 (In_kept_pairs _ _ _ _ Hin))|]. split; assumption.
Qed.

Lemma weighted_median_nan_iff_all_nan_witness :
  length [None; Some 2] = length [1; 1] /\
  (_weighted_median [None; Some 2] [1; 1] = None <->
   Forall (fun c => c = None) [None; Some 2]).
Proof.
  split; [reflexivity|]. apply weighted_median_nan_iff_all_nan. reflexivity.
Defined.

Lemma weighted_median_within_range_witness :
  _weighted_median [Some 1; Some 4] [0; 0] = Some (5 # 2) /\
  exists lo hi, In (Some lo) [Some 1; Some 4] /\ In (Some hi) [Some 1; Some 4] /\
                lo <= 5 # 2 <= hi.
Proof.
  split; [vm_compute; reflexivity|].
  apply (weighted_median_within_range _ [0; 0]). vm_compute. reflexivity.
Defined.

Lemma weighted_median_splits_weight_witness :
  (forall w, In w [1; 2; 3] -> 0 <= w) /\
  0 < total_weight [Some 1; Some 5; None] [1; 2; 3] /\
  _weighted_median [Some 1; Some 5; None] [1; 2; 3] = Some 5 /\
  (In (Some 5) [Some 1; Some 5; None] /\
   weight_where (fun v => negb (Qle_bool 5 v)) [Some 1; Some 5; None] [1; 2; 3]
     < total_weight [Some 1; Some 5; None] [1; 2; 3] / 2 /\
   total_weight [Some 1; Some 5; None] [1; 2; 3] / 2
     <= weight_where (fun v => Qle_bool v 5) [Some 1; Some 5; None] [1; 2; 3]).
Proof.
  assert (Hw : forall w, In w [1; 2; 3] -> 0 <= w)
    by (intros w Hw; destruct Hw as [<-|[<-|[<-|[]]]]; vm_compute; discriminate).
  assert (Ht : 0 < total_weight [Some 1; Some 5; None] [1; 2; 3]) by (vm_compute; reflexivity).
  assert (Hm : _weighted_median [Some 1; Some 5; None] [1; 2; 3] = Some 5)
    by (vm_compute; reflexivity).
  split; [exact Hw|]. split; [exact Ht|]. split; [exact Hm|].
  exact (weighted_median_splits_weight _ _ 5 Hw Ht Hm).
Defined.

(** ** [_safe_write_layer_to_gpkg]: the layers of the written file *)

Lemma update_absent {V : Type} (k : string) (v : V) (h : list (string * V)) :
  lookup k h = None -> update k v h = h ++ [(k, v)].
Proof.
  induction h as [|[k1 v1] t IH]; cbn; [reflexivity|].
  destruct (String.eqb k k1); [discriminate|].
  intros H. rewrite (IH H). reflexivity.
Qed.

Lemma lookup_app_none {V : Type} (k : string) (h1 h2 : list (string * V)) :
  lookup k h1 = None -> lookup k (h1 ++ h2) = lookup k h2.
Proof.
  induction h1 as [|[k1 v1] t IH]; cbn; [reflexivity|].
  destruct (String.eqb k k1); [discriminate | exact IH].
Qed.

Lemma lookup_notin {V : Type} (k : string) (h : list (string * V)) :
  ~ In k (map fst h) -> lookup k h = None.
Proof.
  induction h as [|[k1 v1] t IH]; cbn; [reflexivity|]. intros Hn.
  destruct (String.eqb k k1) eqn:E.
  - apply String.eqb_eq in E. subst. exfalso. apply Hn. left. reflexivity.
  - apply IH. intros H. apply Hn. right. exact H.
Qed.

Lemma lookup_nodup_mid {V : Type} (pre sfx : list (string * V)) (l : string) (v : V) :
  NoDup (map fst (pre ++ (l, v) :: sfx)) -> lookup l (pre ++ (l, v) :: sfx) = Some v.
Proof.
  intros Hnd. rewrite map_app in Hnd. cbn in Hnd. apply NoDup_remove_2 in Hnd.
  rewrite lookup_app_none.
  - cbn. rewrite String.eqb_refl. reflexivity.
  - apply lookup_notin. intros H. apply Hnd. apply in_or_app. left. exact H.
Qed.

Lemma lookup_drop_layer_self {V : Type} (n : string) (g : list (string * V)) :
  lookup n (drop_layer n g) = None.
Proof.
  unfold drop_layer. induction g as [|[k v] t IH]; cbn; [reflexivity|].
  destruct (String.eqb k n) eqn:E; cbn; [exact IH|].
  rewrite String.eqb_sym, E. exact IH.
Qed.

Lemma drop_layer_absent {V : Type} (n : string) (g : list (string * V)) :
  mem n (map fst g) = false -> drop_layer n g = g.
Proof.
  unfold drop_layer. induction g as [|[k v] t IH]; cbn; [reflexivity|]. rewrite String.eqb_sym.
  destruct (String.eqb k n); [discriminate|]. cbn. intros H. rewrite (IH H). reflexivity.
Qed.

Lemma write_to_scratch {V : Type} (n : string) (t : V) (h : list (string * V)) :
  lookup n h = None ->
  match opt_nonempty h with Some h' => update n t h' | None => [(n, t)] end = h ++ [(n, t)].
Proof. destruct h as [|x h]; cbn [opt_nonempty]; [reflexivity|]. apply update_absent. Qed.

Section SafeWriteContents.

Variable G : Type.

Lemma bind_step {A B} (m : M G A) (k : A -> M G B) w a w' :
  m w = (Ok a, w') -> bind G m k w = k a w'.
Proof. intros H. unfold bind. rewrite H. reflexivity. Qed.

Lemma to_file_step f l (t : frame G) w :
  to_file G f l t w =
  (Ok tt, mkWorld (update f (match lookup f (files w) with Some g => update l t g | None => [(l, t)] end)
                     (files w)) (log w ++ [EvWrite f l])).
Proof. reflexivity. Qed.

Lemma copy_layers_contents (p n temp : string) (g : gpkg G) :
  temp <> p -> NoDup (map fst g) ->
  forall sfx pre w, g = pre ++ sfx -> lookup p (files w) = Some g ->
  lookup temp (files w) = opt_nonempty (drop_layer n pre) ->
  exists w', copy_layers G p n temp (map fst sfx) w = (Ok tt, w') /\
    lookup p (files w') = Some g /\
    lookup temp (files w') = opt_nonempty (drop_layer n g) /\
    (forall f, f <> temp -> lookup f (files w') = lookup f (files w)).
Proof.
  intros Htp Hnd. induction sfx as [|[l v] sfx IH]; intros pre w Eg Hp Ht.
  - exists w. rewrite app_nil_r in Eg. subst pre. cbn. split; [reflexivity|]. tauto.
  - cbn [map copy_layers fst].
    destruct (String.eqb l n) eqn:Eln.
    + rewrite (bind_step _ _ w tt w) by reflexivity.
      destruct (IH (pre ++ [(l, v)]) w) as (w' & H1 & H2 & H3 & H4).
      * rewrite <- app_assoc. exact Eg.
      * exact Hp.
      * unfold drop_layer. rewrite filter_app. cbn. rewrite Eln. cbn. rewrite app_nil_r. exact Ht.
      * exists w'. tauto.
    + assert (Hv : lookup l g = Some v) by (rewrite Eg in *; apply lookup_nodup_mid; exact Hnd).
      set (w1 := emit G (EvRead p l) w).
      assert (R : read_file G p l w = (Ok v, w1)) by (unfold read_file; rewrite Hp, Hv; reflexivity).
      set (h := match lookup temp (files w1) with Some g0 => update l v g0 | None => [(l, v)] end).
      set (w2 := mkWorld (update temp h (files w1)) (log w1 ++ [EvWrite temp l])).
      assert (E : bind G (read_file G p l) (fun gdf => to_file G temp l gdf) w = (Ok tt, w2))
        by (rewrite (bind_step _ _ _ _ _ R); reflexivity).
      rewrite (bind_step _ _ _ _ _ E).
      assert (Hl : lookup l (drop_layer n pre) = None).
      { apply lookup_notin. intros Hin. rewrite Eg, map_app in Hnd. cbn in Hnd.
        apply NoDup_remove_2 in Hnd. apply Hnd. apply in_or_app. left.
        unfold drop_layer in Hin. apply in_map_iff in Hin as ([k x] & Ek & Hk).
        apply filter_In in Hk as [Hk _]. apply in_map_iff. exists (k, x). split; assumption. }
      destruct (IH (pre ++ [(l, v)]) w2) as (w' & H1 & H2 & H3 & H4).
      * rewrite <- app_assoc. exact Eg.
      * cbn. rewrite lookup_update. rewrite (proj2 (String.eqb_neq p temp)) by (intro; apply Htp; symmetry; assumption).
        exact Hp.
      * cbn. rewrite lookup_update, String.eqb_refl. unfold h. cbn [files w1 emit]. rewrite Ht.
        destruct (drop_layer n pre) as [|x h0] eqn:Ed; cbn [opt_nonempty].
        -- unfold drop_layer in *. rewrite filter_app, Ed. cbn. rewrite Eln. reflexivity.
        -- rewrite update_absent by exact Hl.
           unfold drop_layer in *. rewrite filter_app, Ed. cbn. rewrite Eln. reflexivity.
      * exists w'. split; [exact H1|]. split; [exact H2|]. split; [exact H3|].
        intros f Hf. rewrite H4 by exact Hf. cbn. rewrite lookup_update.
        rewrite (proj2 (String.eqb_neq f temp) Hf). reflexivity.
Qed.

End SafeWriteContents.

(* In the model, whose writes and removals do not fail, the safe write
   runs to its end on a file with distinct layer names. *)
Lemma safe_write_layers_total (G : Type) (p n : string) (t : frame G) (w : world G) :
  let g0 := match lookup p (files w) with Some g => g | None => [] end in
  let temp := String.append p ".tmp.gpkg" in
  NoDup (map fst g0) ->
  exists w', _safe_write_layer_to_gpkg G p n t w = (Ok tt, w') /\
    lookup p (files w') = Some (drop_layer n g0 ++ [(n, t)]) /\
    lookup temp (files w') = (if mem n (map fst g0) then None else lookup temp (files w)).
Proof.
  intros g0 temp Hnd.
  assert (Htp : temp <> p) by (apply append_neq_self; discriminate).
  assert (Hpt : (temp =? p) = false) by (apply String.eqb_neq; exact Htp).
  unfold _safe_write_layer_to_gpkg. cbv zeta. fold temp.
  rewrite (bind_step G _ _ w _ w) by reflexivity.
  unfold g0 in *. destruct (lookup p (files w)) as [g|] eqn:Ep; cbn [negb].
  - rewrite (bind_step G _ _ w (map fst g) (emit G (EvListLayers p) w))
      by (unfold listlayers; rewrite Ep; reflexivity).
    destruct (mem n (map fst g)) eqn:Em; cbn [negb].
    + set (w2 := emit G (EvListLayers p) w).
      rewrite (bind_step G _ _ w2 _ w2) by reflexivity.
      assert (E3 : exists w3, (if match lookup temp (files w2) with Some _ => true | None => false end
                               then os_remove G temp else ret G tt) w2 = (Ok tt, w3) /\
                   lookup temp (files w3) = None /\
                   forall f, f <> temp -> lookup f (files w3) = lookup f (files w2)).
      { destruct (lookup temp (files w2)) eqn:Et.
        - eexists. split; [reflexivity|]. cbn. rewrite lookup_remove, String.eqb_refl.
          split; [reflexivity|]. intros f Hf. rewrite lookup_remove.
          rewrite (proj2 (String.eqb_neq f temp) Hf). reflexivity.
        - exists w2. split; [reflexivity|]. split; [exact Et | reflexivity]. }
      destruct E3 as (w3 & E3 & T3 & O3).
      rewrite (bind_step G _ _ _ _ _ E3).
      assert (Hp3 : lookup p (files w3) = Some g) by (rewrite O3 by (intro; apply Htp; symmetry; assumption); exact Ep).
      destruct (copy_layers_contents G p n temp g Htp Hnd g [] w3 eq_refl Hp3 T3)
        as (w4 & E4 & P4 & T4 & O4).
      rewrite (bind_step G _ _ _ _ _ E4).
      rewrite (bind_step G _ _ _ _ _ (to_file_step G temp n t w4)).
      unfold os_replace. cbn [files log emit]. rewrite lookup_update, String.eqb_refl.
      eexists. split; [reflexivity|]. cbn [files].
      rewrite T4.
      assert (Hself := lookup_drop_layer_self n g).
      destruct (drop_layer n g) as [|x h0] eqn:Ed; cbn [opt_nonempty];
        [|rewrite (update_absent n t _ Hself)];
        rewrite lookup_update, String.eqb_refl; (split; [reflexivity|]);
        rewrite lookup_update, Hpt, lookup_remove, String.eqb_refl; reflexivity.
    + rewrite (to_file_step G p n t). eexists. split; [reflexivity|]. cbn [files emit].
      rewrite lookup_update, String.eqb_refl, Ep.
      rewrite (update_absent n t g (lookup_not_mem n g Em)), (drop_layer_absent n g Em).
      split; [reflexivity|]. rewrite lookup_update, Hpt. reflexivity.
  - rewrite (to_file_step G p n t). eexists. split; [reflexivity|]. cbn [files].
    rewrite lookup_update, String.eqb_refl, Ep. split; [reflexivity|].
    rewrite lookup_update, Hpt. reflexivity.
Qed.

(** When [_safe_write_layer_to_gpkg] (lines 64-96) succeeds on a file
    whose layer names are distinct, the file afterwards holds its former
    layers except [layer_name], in their order, followed by the new layer
    (a new file holds just that layer).  When a layer of that name existed,
    the whole file was rebuilt through [<path>.tmp.gpkg] and that scratch
    file is gone; otherwise the scratch path is untouched. *)
Theorem safe_write_resulting_layers (G : Type) (p n : string) (t : frame G) (w w' : world G) :
  let g0 := match lookup p (files w) with Some g => g | None => [] end in
  let temp := String.append p ".tmp.gpkg" in
  _safe_write_layer_to_gpkg G p n t w = (Ok tt, w') ->
  NoDup (map fst g0) ->
  lookup p (files w') = Some (drop_layer n g0 ++ [(n, t)]) /\
  lookup temp (files w') = (if mem n (map fst g0) then None else lookup temp (files w)).
Proof.
  intros g0 temp Hrun Hnd.
  destruct (safe_write_layers_total G p n t w Hnd) as (w'' & E & H1 & H2).
  rewrite E in Hrun. injection Hrun as <-. split; assumption.
Qed.

Lemma safe_write_resulting_layers_witness :
  let g0 := match lookup "out.gpkg" (files world_out) with Some g => g | None => [] end in
  let temp := String.append "out.gpkg" ".tmp.gpkg" in
  let w' := snd (_safe_write_layer_to_gpkg cells "out.gpkg" "agg_mun" pres_two world_out) in
  _safe_write_layer_to_gpkg cells "out.gpkg" "agg_mun" pres_two world_out = (Ok tt, w') /\
  NoDup (map fst g0) /\
  lookup "out.gpkg" (files w') = Some (drop_layer "agg_mun" g0 ++ [("agg_mun", pres_two)]) /\
  lookup temp (files w') = (if mem "agg_mun" (map fst g0) then None else lookup temp (files world_out)).
Proof.
  intros g0 temp w'.
  assert (Hrun : _safe_write_layer_to_gpkg cells "out.gpkg" "agg_mun" pres_two world_out = (Ok tt, w'))
    by (vm_compute; reflexivity).
  assert (Hnd : NoDup (map fst g0)).
  { vm_compute. constructor; [intros [H|[]]; discriminate H | constructor; [intros [] | constructor]]. }
  split; [exact Hrun|]. split; [exact Hnd|].
  exact (safe_write_resulting_layers cells "out.gpkg" "agg_mun" pres_two world_out w' Hrun Hnd).
Defined.

(** ** Failed runs *)

Lemma lookup_In_some {V : Type} (l : string) (g : list (string * V)) :
  In l (map fst g) -> exists v, lookup l g = Some v.
Proof.
  induction g as [|[k v] t IH]; cbn; [intros []|]. intros H.
  destruct (String.eqb l k) eqn:E; [eauto|].
  destruct H as [H|H]; [subst; rewrite String.eqb_refl in E; discriminate | exact (IH H)].
Qed.

Section NeverFails.

Variable G : Type.

Lemma bind_err_inv {A B} (m : M G A) (k : A -> M G B) w e w'' :
  bind G m k w = (Err e, w'') ->
  m w = (Err e, w'') \/ exists a w', m w = (Ok a, w') /\ k a w' = (Err e, w'').
Proof.
  unfold bind. destruct (m w) as [[a|e'] w1]; intros H; [right; eauto|].
  injection H as -> ->. left. reflexivity.
Qed.

Lemma read_file_files f l w r w' : read_file G f l w = (r, w') -> files w' = files w.
Proof.
  unfold read_file. destruct (lookup f (files w)) as [g|]; [destruct (lookup l g)|];
    intros H; injection H as _ <-; reflexivity.
Qed.

Lemma listlayers_files f w r w' : listlayers G f w = (r, w') -> files w' = files w.
Proof.
  unfold listlayers. destruct (lookup f (files w)); intros H; injection H as _ <-; reflexivity.
Qed.

Lemma copy_layers_ok (p n temp : string) (g : gpkg G) :
  temp <> p ->
  forall layers w, lookup p (files w) = Some g -> (forall l, In l layers -> In l (map fst g)) ->
  exists w', copy_layers G p n temp layers w = (Ok tt, w') /\ lookup p (files w') = Some g.
Proof.
  intros Htp. induction layers as [|lyr rest IH]; intros w Hp Hin; cbn [copy_layers].
  - exists w. split; [reflexivity | exact Hp].
  - assert (Hr : forall l, In l rest -> In l (map fst g)) by (intros l Hl; apply Hin; right; exact Hl).
    destruct (String.eqb lyr n).
    + rewrite (bind_step G _ _ w tt w) by reflexivity. exact (IH w Hp Hr).
    + destruct (lookup_In_some lyr g (Hin lyr (or_introl eq_refl))) as [v Hv].
      assert (R : read_file G p lyr w = (Ok v, emit G (EvRead p lyr) w))
        by (unfold read_file; rewrite Hp, Hv; reflexivity).
      rewrite (bind_step G _ _ w tt _ (eq_trans (bind_step G _ _ _ _ _ R) (to_file_step G temp lyr v _))).
      apply IH; [|exact Hr]. cbn. rewrite lookup_update.
      rewrite (proj2 (String.eqb_neq p temp)) by (intro; apply Htp; symmetry; assumption).
      exact Hp.
Qed.

Lemma safe_write_ok (p n : string) (t : frame G) (w : world G) :
  fst (_safe_write_layer_to_gpkg G p n t w) = Ok tt.
Proof.
  set (temp := String.append p ".tmp.gpkg").
  assert (Htp : temp <> p) by (apply append_neq_self; discriminate).
  unfold _safe_write_layer_to_gpkg. cbv zeta. fold temp.
  rewrite (bind_step G _ _ w _ w) by reflexivity.
  destruct (lookup p (files w)) as [g|] eqn:Ep; cbn [negb]; [|reflexivity].
  rewrite (bind_step G _ _ w (map fst g) (emit G (EvListLayers p) w))
    by (unfold listlayers; rewrite Ep; reflexivity).
  destruct (mem n (map fst g)); cbn [negb]; [|reflexivity].
  set (w2 := emit G (EvListLayers p) w).
  rewrite (bind_step G _ _ w2 _ w2) by reflexivity.
  assert (E3 : exists w3, (if match lookup temp (files w2) with Some _ => true | None => false end
                           then os_remove G temp else ret G tt) w2 = (Ok tt, w3) /\
               lookup p (files w3) = Some g).
  { destruct (lookup temp (files w2)).
    - eexists. split; [reflexivity|]. cbn. rewrite lookup_remove.
      rewrite (proj2 (String.eqb_neq p temp)) by (intro; apply Htp; symmetry; assumption).
      exact Ep.
    - exists w2. split; [reflexivity | exact Ep]. }
  destruct E3 as (w3 & E3 & P3). rewrite (bind_step G _ _ _ _ _ E3).
  destruct (copy_layers_ok p n temp g Htp (map fst g) w3 P3 (fun l H => H)) as (w4 & E4 & _).
  rewrite (bind_step G _ _ _ _ _ E4), (bind_step G _ _ _ _ _ (to_file_step G temp n t w4)).
  unfold os_replace. cbn [files]. rewrite lookup_update, String.eqb_refl. reflexivity.
Qed.

End NeverFails.

(** A run of [aggregate_presentation_gpkg] (lines 98-246) that raises one
    of the errors of validation or reading (missing presentation path,
    unsupported name, missing file or layer, no [cs_ish], no layers,
    missing id field or column) has changed no file: all of them are raised
    before the only write, the call of [_safe_write_layer_to_gpkg] at the
    end.  The failure of a write itself ([to_file] raising, lines 67-94) is
    outside the model, whose writes always complete. *)
Theorem failed_run_leaves_files :
  forall (G : Type) (area : G -> Q) (overlay : frame G -> frame G -> frame G)
         input_gpkg input_layer presentation_gpkg presentation_layer id_field aggs
         output_gpkg (w w' : world G) (e : error),
  aggregate_presentation_gpkg G area overlay input_gpkg input_layer presentation_gpkg
    presentation_layer id_field aggs output_gpkg w = (Err e, w') ->
  files w' = files w.
Proof.
  intros G area overlay ig il pg pl k aggs og w w' e H.
  unfold aggregate_presentation_gpkg in H.
  destruct pg as [pg|]; [|injection H as _ <-; reflexivity].
  destruct (first_unsupported (normalize_aggs aggs)); [injection H as _ <-; reflexivity|].
  cbv zeta in H.
  apply bind_err_inv in H as [H|(gi & w1 & E1 & H)]; [exact (read_file_files G _ _ _ _ _ H)|].
  rewrite <- (read_file_files G _ _ _ _ _ E1).
  destruct (negb (has_col (fcols gi) "cs_ish")); [injection H as _ <-; reflexivity|].
  apply bind_err_inv in H as [H|(pl' & w2 & E2 & H)].
  - destruct pl as [l|]; [discriminate H|].
    apply bind_err_inv in H as [H|(ls & w2 & L & H)]; [exact (listlayers_files G _ _ _ _ H)|].
    rewrite <- (listlayers_files G _ _ _ _ L).
    destruct ls; [injection H as _ <-; reflexivity | discriminate H].
  - assert (F2 : files w2 = files w1).
    { destruct pl as [l|]; [injection E2 as _ <-; reflexivity|].
      apply bind_ok_inv in E2 as (ls & w3 & L & E2). rewrite <- (listlayers_files G _ _ _ _ L).
      destruct ls; [discriminate E2 | injection E2 as _ <-; reflexivity]. }
    rewrite <- F2.
    apply bind_err_inv in H as [H|(gp & w3 & E3 & H)]; [exact (read_file_files G _ _ _ _ _ H)|].
    rewrite <- (read_file_files G _ _ _ _ _ E3).
    destruct (negb (has_col (fcols gp) k)); [injection H as _ <-; reflexivity|].
    apply bind_err_inv in H as [H|(sel & w4 & E4 & H)].
    + unfold select in H. destruct (filter _ _); injection H as _ <-; reflexivity.
    + apply select_inv in E4 as ->.
      apply bind_err_inv in H as [H|([] & w5 & E5 & H)]; [|discriminate H].
      match type of H with
      | _safe_write_layer_to_gpkg G ?a ?b ?c ?d = _ =>
          assert (Hok := safe_write_ok G a b c d); rewrite H in Hok; discriminate Hok
      end.
Qed.

Lemma failed_run_leaves_files_witness :
  aggregate_presentation_gpkg cells cells_area cells_overlay "in.gpkg" "regiao_completa"
    (Some "mun.gpkg") None "fid" (AggSeq ["mean"]) None world0 =
  (Err (ErrIdField "fid"),
   snd (aggregate_presentation_gpkg cells cells_area cells_overlay "in.gpkg" "regiao_completa"
          (Some "mun.gpkg") None "fid" (AggSeq ["mean"]) None world0)) /\
  files (snd (aggregate_presentation_gpkg cells cells_area cells_overlay "in.gpkg" "regiao_completa"
                (Some "mun.gpkg") None "fid" (AggSeq ["mean"]) None world0)) = files world0.
Proof.
  assert (H : aggregate_presentation_gpkg cells cells_area cells_overlay "in.gpkg" "regiao_completa"
                (Some "mun.gpkg") None "fid" (AggSeq ["mean"]) None world0 =
              (Err (ErrIdField "fid"),
               snd (aggregate_presentation_gpkg cells cells_area cells_overlay "in.gpkg"
                      "regiao_completa" (Some "mun.gpkg") None "fid" (AggSeq ["mean"]) None world0)))
    by (vm_compute; reflexivity).
  split; [exact H|].
  exact (failed_run_leaves_files cells cells_area cells_overlay _ _ _ _ _ _ _ world0 _ _ H).
Defined.

(** ** Shape of [result_pres] for any id field *)

Section Shape.

Variable G : Type.

Lemma same_geoms_refl f : same_geoms G f f.
Proof. unfold same_geoms. induction (frows f); constructor; [reflexivity | assumption]. Qed.

Lemma same_geoms_trans f1 f2 f3 : same_geoms G f1 f2 -> same_geoms G f2 f3 -> same_geoms G f1 f3.
Proof.
  unfold same_geoms. generalize (frows f1) (frows f2) (frows f3). clear f1 f2 f3.
  intros l1 l2 l3 H12. revert l3. induction H12 as [|a b t1 t2 Hab H IH]; intros l3 H23;
    inversion H23 as [|b' c t2' t3 Hbc H']; subst; constructor; [congruence | exact (IH _ H')].
Qed.

Lemma same_geoms_set_col c g f : same_geoms G f (set_col G c g f).
Proof.
  unfold same_geoms. cbn [set_col frows]. induction (frows f); constructor; [reflexivity | assumption].
Qed.

Lemma same_geoms_merge_group (k n : string) (ks : list Q) (F : Q -> cell) (l : frame G) :
  NoDupA Qeq ks ->
  same_geoms G l (merge_left G k l (mkTable [k; n] (map (fun q => [(k, Some q); (n, F q)]) ks))).
Proof.
  intros Hks. unfold same_geoms. cbn [merge_left frows].
  induction (frows l) as [|lr lrs IH]; [constructor|]. cbn [flat_map].
  assert (Hlen := filter_keys_le1 (get (attrs lr) k) ks Hks).
  rewrite <- (filter_recs_length _ k n F) in Hlen.
  unfold merge_row at 1. cbn [trows] in *.
  destruct (filter (fun rr => cell_eqb (get (attrs lr) k) (get rr k))
              (map (fun q => [(k, Some q); (n, F q)]) ks)) as [|rr [|rr2 ms]].
  - cbn [app]. constructor; [reflexivity | exact IH].
  - cbn [map app]. constructor; [reflexivity | exact IH].
  - cbn in Hlen. lia.
Qed.

Lemma same_geoms_fold (step : frame G -> string -> frame G) (bs : list string) (f : frame G) :
  (forall f' b, same_geoms G f' (step f' b)) -> same_geoms G f (fold_left step bs f).
Proof.
  intros Hs. revert f. induction bs as [|b t IH]; intros f; cbn [fold_left];
    [apply same_geoms_refl | exact (same_geoms_trans _ _ _ (Hs f b) (IH _))].
Qed.

Lemma cols_set_col c c' g f : In c (fcols f) -> In c (fcols (set_col G c' g f)).
Proof.
  intros H. cbn [set_col fcols]. destruct (has_col (fcols f) c'); [exact H|].
  apply in_or_app. left. exact H.
Qed.

Lemma cols_set_col_self c g f : In c (fcols (set_col G c g f)).
Proof.
  cbn [set_col fcols]. destruct (has_col (fcols f) c) eqn:E; [apply has_col_In; exact E|].
  apply in_or_app. right. left. reflexivity.
Qed.

Lemma cols_fold (step : frame G -> string -> frame G) (bs : list string) (f : frame G) :
  (forall f' b c, In c (fcols f') -> In c (fcols (step f' b))) ->
  (forall f' b, In (agg_col b) (fcols (step f' b))) ->
  forall a, In a bs -> In (agg_col a) (fcols (fold_left step bs f)).
Proof.
  intros Hk Hn. revert f. induction bs as [|b t IH]; intros f a Ha; [destruct Ha|].
  cbn [fold_left]. destruct Ha as [->|Ha]; [|exact (IH _ a Ha)].
  assert (Hkeep : forall bs' f', In (agg_col a) (fcols f') -> In (agg_col a) (fcols (fold_left step bs' f'))).
  { induction bs' as [|b' t' IH']; intros f' H; [exact H|]. apply IH'. apply Hk. exact H. }
  apply Hkeep. apply Hn.
Qed.

End Shape.

(** Whatever the id field and the requested aggregations, [result_pres]
    (lines 178-235) has one row per row of the projected presentation
    layer, in the same order and with the same geometry: the group-by
    results merged on the left have at most one row per key. *)
Theorem result_rows_keep_presentation_geometry (G : Type) (area : G -> Q) (k : string)
    (aggs : list string) (pres_p inter : frame G) :
  same_geoms G pres_p (aggregate_core G area k aggs pres_p inter).
Proof.
  assert (Hi : same_geoms G pres_p (init_columns G aggs pres_p))
    by (apply same_geoms_fold; intros; apply same_geoms_set_col).
  unfold aggregate_core. destruct (frows inter) as [|r rs]; [exact Hi|].
  set (inter2 := if has_col _ "area_apresent_km2" then _ else _).
  assert (H1 : forall it res, same_geoms G res (snd (mean_step G k aggs it res))).
  { intros it res. unfold mean_step. destruct (mem "mean" aggs); [|apply same_geoms_refl].
    apply same_geoms_merge_group, group_keys_NoDupA. }
  assert (H2 : forall it res, same_geoms G res (median_step G k aggs it res)).
  { intros it res. unfold median_step. destruct (mem "median" aggs); [|apply same_geoms_refl].
    destruct (group_records G k "cs_ish_median" _ (frows it)) as [|x xs] eqn:E;
      [apply same_geoms_set_col|].
    rewrite <- E. apply same_geoms_merge_group, group_keys_NoDupA. }
  assert (H3 : forall it res, same_geoms G res (max_step G k aggs it res)).
  { intros it res. unfold max_step. destruct (mem "max" aggs); [|apply same_geoms_refl].
    apply same_geoms_merge_group, group_keys_NoDupA. }
  assert (H4 : forall it res, same_geoms G res (min_step G k aggs it res)).
  { intros it res. unfold min_step. destruct (mem "min" aggs); [|apply same_geoms_refl].
    apply same_geoms_merge_group, group_keys_NoDupA. }
  assert (H5 : forall res, same_geoms G res (ensure_columns G aggs res)).
  { intros res. apply same_geoms_fold. intros f' b.
    destruct (has_col (fcols f') (agg_col b)); [apply same_geoms_refl | apply same_geoms_set_col]. }
  pose proof (H1 inter2 (init_columns G aggs pres_p)) as H1'.
  destruct (mean_step G k aggs inter2 (init_columns G aggs pres_p)) as [inter3 result1].
  cbn [snd] in H1'.
  eapply same_geoms_trans; [exact Hi|]. eapply same_geoms_trans; [exact H1'|].
  eapply same_geoms_trans; [apply H2|]. eapply same_geoms_trans; [apply H3|].
  eapply same_geoms_trans; [apply H4|]. apply H5.
Qed.

(** Every requested aggregation has its column [cs_ish_<a>] in
    [result_pres]: lines 182-184 create them and lines 231-235 re-create
    any a merge has renamed. *)
Theorem result_has_requested_columns (G : Type) (area : G -> Q) (k : string)
    (aggs : list string) (pres_p inter : frame G) (a : string) :
  In a aggs -> In (agg_col a) (fcols (aggregate_core G area k aggs pres_p inter)).
Proof.
  intros Ha. unfold aggregate_core.
  destruct (frows inter) as [|r rs].
  - unfold init_columns. apply (cols_fold G); [intros; apply cols_set_col; assumption | intros; apply cols_set_col_self | exact Ha].
  - destruct (mean_step G k aggs _ _) as [inter3 result1].
    unfold ensure_columns. apply (cols_fold G); [| |exact Ha].
    + intros f' b c Hc. destruct (has_col (fcols f') (agg_col b)); [exact Hc | apply cols_set_col; exact Hc].
    + intros f' b. destruct (has_col (fcols f') (agg_col b)) eqn:E; [apply has_col_In; exact E | apply cols_set_col_self].
Qed.

Lemma result_has_requested_columns_witness :
  In "median" ["median"] /\
  In (agg_col "median") (fcols (aggregate_core cells cells_area "id_apresent" ["median"]
                                  pres_p_two inter_zero_area)).
Proof.
  assert (H : In "median" ["median"]) by (left; reflexivity).
  split; [exact H | exact (result_has_requested_columns cells cells_area "id_apresent" ["median"]
                             pres_p_two inter_zero_area "median" H)].
Defined.

(** With no aggregation requested (an empty list passes the validation of
    lines 118-120), [result_pres] is the projected presentation layer
    itself: no column is added and no merge happens. *)
Theorem no_aggregation_keeps_presentation (G : Type) (area : G -> Q) (k : string)
    (pres_p inter : frame G) :
  aggregate_core G area k [] pres_p inter = pres_p.
Proof. unfold aggregate_core. destruct (frows inter); reflexivity. Qed.

(** ** UTM zone of [_get_local_utm_crs] *)

(** For a centroid longitude of at least -180, the zone written into the
    projection string by [_get_local_utm_crs] (line 38) is [z] exactly when
    the longitude lies in the [z]-th band of 6 degrees counted from -180;
    so a longitude of 180 gives zone 61, past the last UTM zone 60. *)
Theorem utm_zone_band (lon : Q) (z : Z) : -180 <= lon ->
  (utm_zone lon = z <-> 6 * (inject_Z z - 1) - 180 <= lon /\ lon < 6 * inject_Z z - 180).
Proof.
  intros Hl. unfold utm_zone, py_int.
  change ((lon + 180) / 6) with ((lon + 180) * (1 # 6)).
  assert (Hx : 0 <= (lon + 180) * (1 # 6)) by lra.
  rewrite (proj2 (Qle_bool_iff _ _) Hx).
  pose proof (Qfloor_le ((lon + 180) * (1 # 6))) as F1.
  pose proof (Qlt_floor ((lon + 180) * (1 # 6))) as F2.
  set (f := Qfloor ((lon + 180) * (1 # 6))) in *.
  rewrite inject_Z_plus in F2.
  assert (A1 : 6 * inject_Z f <= lon + 180) by lra.
  assert (A2 : lon + 180 < 6 * (inject_Z f + 1)) by (change (inject_Z 1) with 1 in F2; lra).
  split.
  - intros <-. rewrite inject_Z_plus. change (inject_Z 1) with 1. split; lra.
  - intros [B1 B2].
    assert (C1 : (f < z)%Z) by (rewrite Zlt_Qlt; lra).
    assert (C2 : (z - 1 < f + 1)%Z).
    { rewrite Zlt_Qlt, inject_Z_plus. unfold Z.sub. rewrite inject_Z_plus, inject_Z_opp.
      change (inject_Z 1) with 1. lra. }
    lia.
Qed.

Lemma utm_zone_band_witness :
  -180 <= 180 /\ (utm_zone 180 = 61%Z <->
                   6 * (inject_Z 61 - 1) - 180 <= 180 /\ 180 < 6 * inject_Z 61 - 180).
Proof.
  assert (H : -180 <= 180) by (vm_compute; discriminate).
  split; [exact H | exact (utm_zone_band 180 61 H)].
Defined.

Lemma string_append_assoc (a b c : string) :
  String.append (String.append a b) c = String.append a (String.append b c).
Proof. induction a as [|x a IH]; cbn; [reflexivity | rewrite IH; reflexivity]. Qed.

Lemma string_last_char_neq (p q : string) (a b : ascii) : a <> b ->
  String.append p (String a EmptyString) <> String.append q (String b EmptyString).
Proof.
  intros Hab. revert q. induction p as [|x p IH]; intros q; destruct q as [|y q]; cbn.
  - intros H. injection H as H. exact (Hab H).
  - intros H. injection H as _ H. destruct q; discriminate H.
  - intros H. injection H as _ H. destruct p; discriminate H.
  - intros H. injection H as _ H. exact (IH q H).
Qed.

(** The projection string returned by [_get_local_utm_crs] ends in
    [" +south"] exactly when the centroid latitude is negative (lines 39-42);
    otherwise it ends in [" +no_defs"]. *)
Theorem utm_crs_south_iff (c : string) (lon lat : Q) (s : string) :
  _get_local_utm_crs (Some c) lon lat = Some s ->
  (lat < 0 <-> exists p, s = String.append p " +south").
Proof.
  unfold _get_local_utm_crs. cbv zeta. intros H. injection H as <-.
  destruct (Qle_bool 0 lat) eqn:E; cbv [negb].
  - apply Qle_bool_iff in E. split; [intros Hl; exfalso; lra|].
    intros [p Hp]. exfalso.
    change (String.append "+proj=utm +zone="
              (String.append (z_str (utm_zone lon)) " +datum=WGS84 +units=m +no_defs")
            = String.append p (String.append " +sout" "h")) in Hp.
    assert (Hq : String.append "+proj=utm +zone="
                   (String.append (z_str (utm_zone lon)) " +datum=WGS84 +units=m +no_defs")
                 = String.append (String.append "+proj=utm +zone="
                   (String.append (z_str (utm_zone lon)) " +datum=WGS84 +units=m +no_def")) "s").
    { rewrite !string_append_assoc. reflexivity. }
    rewrite Hq, <- (string_append_assoc p) in Hp.
    refine (string_last_char_neq _ _ "s" "h" _ Hp). discriminate.
  - split; [intros _; exists (String.append "+proj=utm +zone="
                (String.append (z_str (utm_zone lon)) " +datum=WGS84 +units=m +no_defs")); reflexivity|].
    intros _. apply Qnot_le_lt. intros Hl. apply Qle_bool_iff in Hl. congruence.
Qed.

Lemma utm_crs_south_iff_witness :
  _get_local_utm_crs (Some "EPSG:4674") (-40) (-10)
    = Some "+proj=utm +zone=24 +datum=WGS84 +units=m +no_defs +south" /\
  (-10 < 0 <-> exists p, "+proj=utm +zone=24 +datum=WGS84 +units=m +no_defs +south"
                           = String.append p " +south").
Proof.
  assert (H : _get_local_utm_crs (Some "EPSG:4674") (-40) (-10)
                = Some "+proj=utm +zone=24 +datum=WGS84 +units=m +no_defs +south")
    by (vm_compute; reflexivity).
  split; [exact H | exact (utm_crs_south_iff "EPSG:4674" (-40) (-10) _ H)].
Defined.

(** ** [--agg] normalisation of [cli] *)

Lemma string_append_nil_r (a : string) : String.append a EmptyString = a.
Proof. induction a as [|x a IH]; cbn; [reflexivity | rewrite IH; reflexivity]. Qed.

Lemma has_char_app (c : ascii) (a b : string) :
  has_char c (String.append a b) = has_char c a || has_char c b.
Proof. induction a as [|x a IH]; cbn; [reflexivity | rewrite IH, orb_assoc; reflexivity]. Qed.

Lemma split_on_never_nil (c : ascii) (s : string) : split_on c s <> [].
Proof.
  induction s as [|x r IH]; cbn; [discriminate|].
  destruct (Ascii.eqb x c); [discriminate|]. destruct (split_on c r); discriminate.
Qed.

Lemma split_on_app (c : ascii) (a s : string) : has_char c a = false ->
  split_on c (String.append a s)
  = match split_on c s with h :: t => String.append a h :: t | [] => [a] end.
Proof.
  induction a as [|x a IH]; intros Ha.
  - cbn. pose proof (split_on_never_nil c s) as Hn.
    destruct (split_on c s); [congruence | reflexivity].
  - cbn in Ha |- *. apply orb_false_iff in Ha as [Hx Ha]. rewrite Hx, (IH Ha).
    pose proof (split_on_never_nil c s) as Hn. destruct (split_on c s); [congruence | reflexivity].
Qed.

Lemma split_on_no_char (c : ascii) (a : string) : has_char c a = false -> split_on c a = [a].
Proof.
  intros Ha. rewrite <- (string_append_nil_r a) at 1. rewrite (split_on_app c a _ Ha).
  cbn. rewrite string_append_nil_r. reflexivity.
Qed.

Lemma split_on_join (c : ascii) (xs : list string) :
  Forall (fun x => has_char c x = false) xs -> xs <> [] ->
  split_on c (join_with (String c EmptyString) xs) = xs.
Proof.
  induction xs as [|x [|y t] IH]; intros Hf Hne; [congruence| |].
  - inversion Hf; subst. cbn [join_with]. apply split_on_no_char. assumption.
  - inversion Hf as [|? ? Hx Ht]; subst.
    change (join_with (String c EmptyString) (x :: y :: t))
      with (String.append x (String.append (String c EmptyString)
              (join_with (String c EmptyString) (y :: t)))).
    rewrite (split_on_app c x _ Hx). cbn [String.append split_on].
    rewrite Ascii.eqb_refl. rewrite string_append_nil_r.
    rewrite (IH Ht ltac:(discriminate)). reflexivity.
Qed.

Lemma has_char_join (c : ascii) (x y : string) (t : list string) :
  has_char c (join_with (String c EmptyString) (x :: y :: t)) = true.
Proof.
  cbn [join_with]. rewrite has_char_app. cbn. rewrite Ascii.eqb_refl, orb_true_r. reflexivity.
Qed.

Lemma lstrip_idem (s : string) : lstrip (lstrip s) = lstrip s.
Proof.
  induction s as [|x r IH]; cbn; [reflexivity|].
  destruct (is_space x) eqn:E; [exact IH | cbn; rewrite E; reflexivity].
Qed.

Lemma lstrip_head (s : string) :
  lstrip s = EmptyString \/ exists x r, lstrip s = String x r /\ is_space x = false.
Proof.
  induction s as [|x r IH]; cbn; [left; reflexivity|].
  destruct (is_space x) eqn:E; [exact IH | right; exists x, r; split; [reflexivity | exact E]].
Qed.

Lemma rstrip_idem (s : string) : rstrip (rstrip s) = rstrip s.
Proof.
  induction s as [|x r IH]; cbn; [reflexivity|].
  destruct (is_space x && String.eqb (rstrip r) EmptyString) eqn:E; [reflexivity|].
  cbn. rewrite IH, E. reflexivity.
Qed.

Lemma strip_idem (s : string) : strip (strip s) = strip s.
Proof.
  unfold strip. destruct (lstrip_head s) as [E|[x [r [E Hx]]]].
  - rewrite E. reflexivity.
  - rewrite E. cbn [rstrip]. rewrite Hx. cbn [andb].
    cbn [lstrip]. rewrite Hx. cbn [rstrip]. rewrite rstrip_idem, Hx. reflexivity.
Qed.

Lemma has_char_lstrip (c : ascii) (s : string) : has_char c s = false -> has_char c (lstrip s) = false.
Proof.
  induction s as [|x r IH]; cbn; intros H; [reflexivity|].
  apply orb_false_iff in H as [Hx Hr]. destruct (is_space x); [exact (IH Hr)|].
  cbn. rewrite Hx, Hr. reflexivity.
Qed.

Lemma has_char_rstrip (c : ascii) (s : string) : has_char c s = false -> has_char c (rstrip s) = false.
Proof.
  induction s as [|x r IH]; cbn; intros H; [reflexivity|].
  apply orb_false_iff in H as [Hx Hr].
  destruct (is_space x && String.eqb (rstrip r) EmptyString); [reflexivity|].
  cbn. rewrite Hx, (IH Hr). reflexivity.
Qed.

Lemma split_on_pieces (c : ascii) (s : string) :
  Forall (fun p => has_char c p = false) (split_on c s).
Proof.
  induction s as [|x r IH]; cbn; [constructor; [reflexivity | constructor]|].
  destruct (Ascii.eqb x c) eqn:E; [constructor; [reflexivity | exact IH]|].
  destruct (split_on c r) as [|h t]; [constructor; [cbn; rewrite E; reflexivity | constructor]|].
  inversion IH; subst. constructor; [cbn; rewrite E; assumption | assumption].
Qed.

(** Joining with commas any two or more aggregation names that are
    non-empty, comma-free and without surrounding whitespace gives one
    [--agg] argument that lines 264-265 split back into exactly those names,
    in order; a single such name is kept as it is. *)
Theorem cli_aggs_join_roundtrip (xs : list string) :
  xs <> [] ->
  Forall (fun x => x <> EmptyString /\ has_char ","%char x = false /\ strip x = x) xs ->
  cli_aggs [join_with "," xs] = xs.
Proof.
  intros Hne Hf.
  assert (Hc : Forall (fun x => has_char ","%char x = false) xs)
    by (refine (Forall_impl _ _ Hf); intros x Hx; apply Hx).
  destruct xs as [|x [|y t]]; [congruence| |].
  - inversion Hf as [|? ? [_ [Hx _]] _]; subst. cbn [join_with cli_aggs]. rewrite Hx. reflexivity.
  - unfold cli_aggs. change "," with (String ","%char EmptyString).
    rewrite has_char_join, (split_on_join _ _ Hc ltac:(discriminate)).
    clear Hc Hne. induction Hf as [|z zs [Hz [_ Hs]] _ IH]; [reflexivity|].
    cbn [flat_map]. rewrite Hs. destruct (String.eqb z EmptyString) eqn:E.
    + apply String.eqb_eq in E. contradiction.
    + cbn [app]. rewrite IH. reflexivity.
Qed.

Lemma cli_aggs_join_roundtrip_witness :
  ["mean"; "max"] <> [] /\
  Forall (fun x => x <> EmptyString /\ has_char ","%char x = false /\ strip x = x) ["mean"; "max"] /\
  cli_aggs [join_with "," ["mean"; "max"]] = ["mean"; "max"].
Proof.
  assert (H1 : ["mean"; "max"] <> []) by discriminate.
  assert (H2 : Forall (fun x => x <> EmptyString /\ has_char ","%char x = false /\ strip x = x)
                 ["mean"; "max"]).
  { repeat constructor; discriminate. }
  split; [exact H1 | split; [exact H2 | exact (cli_aggs_join_roundtrip _ H1 H2)]].
Defined.

(** When a single [--agg] argument contains a comma, every name it is turned
    into by lines 264-265 is non-empty, contains no comma and has no
    surrounding whitespace; pieces that are blank are dropped, so an
    argument made only of commas and spaces yields no aggregation at all. *)
Theorem cli_aggs_pieces (s a : string) :
  has_char ","%char s = true -> In a (cli_aggs [s]) ->
  a <> EmptyString /\ has_char ","%char a = false /\ strip a = a.
Proof.
  intros Hs Ha. unfold cli_aggs in Ha. rewrite Hs in Ha.
  apply in_flat_map in Ha as [p [Hp Ha]].
  destruct (String.eqb (strip p) EmptyString) eqn:E; [destruct Ha|].
  destruct Ha as [<-|[]].
  split; [intros H; rewrite H in E; discriminate|].
  split; [|apply strip_idem].
  pose proof (proj1 (Forall_forall _ _) (split_on_pieces ","%char s) p Hp) as Hc.
  unfold strip. apply has_char_rstrip, has_char_lstrip, Hc.
Qed.

Lemma cli_aggs_pieces_witness :
  has_char ","%char " mean , max" = true /\ In "max" (cli_aggs [" mean , max"]) /\
  ("max" <> EmptyString /\ has_char ","%char "max" = false /\ strip "max" = "max").
Proof.
  assert (H1 : has_char ","%char " mean , max" = true) by reflexivity.
  assert (H2 : In "max" (cli_aggs [" mean , max"])) by (right; left; reflexivity).
  split; [exact H1 | split; [exact H2 | exact (cli_aggs_pieces _ _ H1 H2)]].
Defined.

(** ** Name of the output layer *)

Lemma list_ascii_of_string_app (a b : string) :
  list_ascii_of_string (String.append a b) = list_ascii_of_string a ++ list_ascii_of_string b.
Proof. induction a as [|x a IH]; cbn; [reflexivity | rewrite IH; reflexivity]. Qed.

Lemma has_char_forallb (c : ascii) (s : string) :
  has_char c s = false -> forallb (fun x => negb (Ascii.eqb x c)) (list_ascii_of_string s) = true.
Proof.
  induction s as [|x r IH]; cbn; intros H; [reflexivity|].
  apply orb_false_iff in H as [Hx Hr]. rewrite Hx, (IH Hr). reflexivity.
Qed.

Lemma forallb_rev' {A : Type} (f : A -> bool) (l : list A) :
  forallb f l = true -> forallb f (rev l) = true.
Proof.
  rewrite !forallb_forall. intros H x Hx. apply H, in_rev, Hx.
Qed.

Lemma existsb_rev' {A : Type} (f : A -> bool) (l : list A) :
  existsb f l = true -> existsb f (rev l) = true.
Proof.
  rewrite !existsb_exists. intros [x [Hx Hf]]. exists x. split; [apply in_rev; rewrite rev_involutive; exact Hx | exact Hf].
Qed.

Lemma take_until_slash_app (l m : list ascii) :
  forallb (fun x => negb (Ascii.eqb x "/"%char)) l = true ->
  take_until_slash (l ++ "/"%char :: m) = l.
Proof.
  induction l as [|x l IH]; cbn; intros H; [reflexivity|].
  apply andb_true_iff in H as [Hx Hl]. apply negb_true_iff in Hx. rewrite Hx, (IH Hl). reflexivity.
Qed.

Lemma basename_last (d b : string) : has_char "/"%char b = false ->
  basename (String.append d (String "/"%char b)) = b.
Proof.
  intros Hb. unfold basename.
  rewrite list_ascii_of_string_app. cbn [list_ascii_of_string].
  change ("/"%char :: list_ascii_of_string b) with (["/"%char] ++ list_ascii_of_string b).
  rewrite !rev_app_distr. cbn [rev app]. rewrite <- app_assoc. cbn [app].
  rewrite take_until_slash_app by (apply forallb_rev', has_char_forallb, Hb).
  rewrite rev_involutive. apply string_of_list_ascii_of_string.
Qed.

(** For a presentation GeoPackage [<dir>/<n>.gpkg], where the file name [n]
    has no slash and is not made only of dots, the layer written to the
    output (lines 175-176) is [agg_<n>]. *)
Theorem out_layer_name_of_path (d n : string) :
  has_char "/"%char n = false ->
  existsb (fun c => negb (Ascii.eqb c "."%char)) (list_ascii_of_string n) = true ->
  String.append "agg_" (splitext_root (basename (String.append d (String "/"%char (String.append n ".gpkg")))))
  = String.append "agg_" n.
Proof.
  intros Hs Hd. rewrite basename_last.
  2:{ rewrite has_char_app, Hs. reflexivity. }
  unfold splitext_root. rewrite list_ascii_of_string_app, rev_app_distr. cbn.
  rewrite (existsb_rev' _ _ Hd), rev_involutive, string_of_list_ascii_of_string. reflexivity.
Qed.

Lemma out_layer_name_of_path_witness :
  has_char "/"%char "apresent_municipios" = false /\
  existsb (fun c => negb (Ascii.eqb c "."%char)) (list_ascii_of_string "apresent_municipios") = true /\
  String.append "agg_" (splitext_root (basename
    (String.append "/data" (String "/"%char (String.append "apresent_municipios" ".gpkg")))))
  = String.append "agg_" "apresent_municipios".
Proof.
  assert (H1 : has_char "/"%char "apresent_municipios" = false) by reflexivity.
  assert (H2 : existsb (fun c => negb (Ascii.eqb c "."%char)) (list_ascii_of_string "apresent_municipios") = true)
    by reflexivity.
  split; [exact H1 | split; [exact H2 | exact (out_layer_name_of_path _ _ H1 H2)]].
Defined.

(** ** Scaling the weights of [_weighted_median] *)

Lemma kept_pairs_scale (c : Q) (values : list cell) (weights : list Q) :
  kept_pairs values (map (Qmult c) weights)
  = map (fun p => (fst p, c * snd p)) (kept_pairs values weights).
Proof.
  unfold kept_pairs. revert weights.
  induction values as [|v vs IH]; intros [|w ws]; try reflexivity.
  cbn [combine map flat_map]. rewrite IH. destruct v; reflexivity.
Qed.

Lemma sort_pairs_scale (c : Q) (l : list (Q * Q)) :
  sort_pairs (map (fun p => (fst p, c * snd p)) l)
  = map (fun p => (fst p, c * snd p)) (sort_pairs l).
Proof.
  unfold sort_pairs. induction l as [|p l IH]; [reflexivity|].
  cbn [map fold_right]. rewrite IH. generalize (fold_right insert_pair [] l) as s.
  induction s as [|q s IHs]; [reflexivity|].
  cbn [map insert_pair fst]. destruct (Qle_bool (fst p) (fst q)); [reflexivity|].
  cbn [map]. rewrite IHs. reflexivity.
Qed.

Lemma map_fst_scale (c : Q) (l : list (Q * Q)) :
  map fst (map (fun p => (fst p, c * snd p)) l) = map fst l.
Proof. rewrite map_map. reflexivity. Qed.

Lemma map_snd_scale (c : Q) (l : list (Q * Q)) :
  map snd (map (fun p => (fst p, c * snd p)) l) = map (Qmult c) (map snd l).
Proof. rewrite !map_map. reflexivity. Qed.

Lemma sumQ_scale (c : Q) (l : list Q) : sumQ (map (Qmult c) l) == c * sumQ l.
Proof.
  induction l as [|x l IH]; cbn; [ring|].
  unfold sumQ in IH. rewrite IH. ring.
Qed.

Lemma Qeq_bool_scale (c x y : Q) : 0 < c -> y == c * x -> Qeq_bool y 0 = Qeq_bool x 0.
Proof.
  intros Hc Hy. destruct (Qeq_bool x 0) eqn:E.
  - apply Qeq_bool_iff in E. apply Qeq_bool_iff. rewrite Hy, E. ring.
  - apply not_true_iff_false. intros Hy0. apply Qeq_bool_iff in Hy0.
    apply not_true_iff_false in E. apply E, Qeq_bool_iff.
    assert (H : c * x == c * 0) by (rewrite <- Hy, Hy0; ring).
    apply Qmult_inj_l in H; [exact H|]. intros Hc0. rewrite Hc0 in Hc. discriminate.
Qed.

Lemma cumsum_scale (c : Q) (l : list Q) (acc' acc : Q) : acc' == c * acc ->
  Forall2 (fun x' x => x' == c * x) (cumsum_from acc' (map (Qmult c) l)) (cumsum_from acc l).
Proof.
  revert acc' acc. induction l as [|x l IH]; intros acc' acc H; cbn; [constructor|].
  assert (H' : acc' + c * x == c * (acc + x)) by (rewrite H; ring).
  constructor; [exact H' | apply IH; exact H'].
Qed.

Lemma searchsorted_scale (c : Q) (a' a : list Q) (v' v : Q) : 0 < c ->
  Forall2 (fun x' x => x' == c * x) a' a -> v' == c * v ->
  searchsorted a' v' = searchsorted a v.
Proof.
  intros Hc Ha Hv. induction Ha as [|x' x a' a Hx _ IH]; [reflexivity|].
  cbn. rewrite IH.
  assert (E : Qle_bool v' x' = Qle_bool v x).
  { destruct (Qle_bool v x) eqn:E.
    - apply Qle_bool_iff in E. apply Qle_bool_iff. rewrite Hv, Hx.
      apply Qmult_le_l; assumption.
    - apply not_true_iff_false. intros E'. apply Qle_bool_iff in E'.
      rewrite Hv, Hx in E'. apply Qmult_le_l in E'; [|exact Hc].
      apply Qle_bool_iff in E'. congruence. }
  rewrite E. reflexivity.
Qed.

(** Multiplying every weight by the same positive factor does not change
    the weighted median (lines 45-62): the all-zero test, the order of the
    values and the comparison of the cumulative weights with half the total
    are all unaffected, so weights given as areas in any unit agree. *)
Theorem weighted_median_scale_invariant (c : Q) (values : list cell) (weights : list Q) :
  0 < c -> _weighted_median values (map (Qmult c) weights) = _weighted_median values weights.
Proof.
  intros Hc. unfold _weighted_median.
  destruct values as [|v vs]; [reflexivity|].
  fold (kept_pairs (v :: vs) (map (Qmult c) weights)).
  fold (kept_pairs (v :: vs) weights).
  rewrite kept_pairs_scale.
  destruct (kept_pairs (v :: vs) weights) as [|p ps]; [reflexivity|].
  replace (map (fun p0 : Q * Q => (fst p0, c * snd p0)) (p :: ps))
    with ((fst p, c * snd p) :: map (fun p0 : Q * Q => (fst p0, c * snd p0)) ps) by reflexivity.
  cbv beta iota zeta.
  replace ((fst p, c * snd p) :: map (fun p0 : Q * Q => (fst p0, c * snd p0)) ps)
    with (map (fun p0 : Q * Q => (fst p0, c * snd p0)) (p :: ps)) by reflexivity.
  generalize (p :: ps) as K. intros K.
  rewrite sort_pairs_scale, !map_fst_scale, !map_snd_scale.
  rewrite (Qeq_bool_scale c (sumQ (map snd K)) _ Hc (sumQ_scale c _)).
  destruct (Qeq_bool (sumQ (map snd K)) 0); [reflexivity|].
  set (L := map snd (sort_pairs K)).
  assert (Hs : searchsorted (cumsum_from 0 (map (Qmult c) L)) (sumQ (map (Qmult c) L) / 2)
               = searchsorted (cumsum_from 0 L) (sumQ L / 2)).
  { apply (searchsorted_scale c); [exact Hc | apply cumsum_scale; ring |].
    rewrite sumQ_scale. field. }
  rewrite Hs. reflexivity.
Qed.

Lemma weighted_median_scale_invariant_witness :
  0 < 1000000 /\
  _weighted_median [Some 1; Some 5; None] (map (Qmult 1000000) [1; 2; 3])
  = _weighted_median [Some 1; Some 5; None] [1; 2; 3].
Proof.
  assert (H : 0 < 1000000) by reflexivity.
  split; [exact H | exact (weighted_median_scale_invariant 1000000 _ _ H)].
Defined.

(** ** An input layer without [cs_ish] *)

(** Once the aggregation names are valid, an input layer without a
    [cs_ish] column stops the run with that error right after it is read
    (lines 127-129): the presentation GeoPackage is neither listed nor
    read, and no file is written. *)
Theorem missing_cs_ish_stops_after_input_read (G : Type) (area : G -> Q)
    (overlay : frame G -> frame G -> frame G) (input_gpkg input_layer pg : string)
    (presentation_layer : option string) (id_field : string) (aggs : aggs_arg)
    (output_gpkg : option string) (w : world G) (g : gpkg G) (t : frame G) :
  first_unsupported (normalize_aggs aggs) = None ->
  lookup input_gpkg (files w) = Some g -> lookup input_layer g = Some t ->
  has_col (fcols t) "cs_ish" = false ->
  aggregate_presentation_gpkg G area overlay input_gpkg input_layer (Some pg)
    presentation_layer id_field aggs output_gpkg w
  = (Err ErrNoCsIsh, emit G (EvRead input_gpkg input_layer) w).
Proof.
  intros Hv Hf Hl Hc. unfold aggregate_presentation_gpkg. rewrite Hv.
  unfold bind at 1, read_file. rewrite Hf, Hl. cbn [negb]. rewrite Hc. reflexivity.
Qed.

Lemma missing_cs_ish_stops_after_input_read_witness :
  first_unsupported (normalize_aggs (AggSeq ["mean"])) = None /\
  lookup "in.gpkg" (files (mk_world pres_layer pres_layer)) = Some [("regiao_completa", pres_layer)] /\
  lookup "regiao_completa" [("regiao_completa", pres_layer)] = Some pres_layer /\
  has_col (fcols pres_layer) "cs_ish" = false /\
  aggregate_presentation_gpkg cells cells_area cells_overlay "in.gpkg" "regiao_completa"
    (Some "mun.gpkg") None "id_apresent" (AggSeq ["mean"]) None (mk_world pres_layer pres_layer)
  = (Err ErrNoCsIsh,
     emit cells (EvRead "in.gpkg" "regiao_completa") (mk_world pres_layer pres_layer)).
Proof.
  assert (H1 : first_unsupported (normalize_aggs (AggSeq ["mean"])) = None) by reflexivity.
  assert (H2 : lookup "in.gpkg" (files (mk_world pres_layer pres_layer))
               = Some [("regiao_completa", pres_layer)]) by reflexivity.
  assert (H3 : lookup "regiao_completa" [("regiao_completa", pres_layer)] = Some pres_layer)
    by reflexivity.
  assert (H4 : has_col (fcols pres_layer) "cs_ish" = false) by reflexivity.
  split; [exact H1 | split; [exact H2 | split; [exact H3 | split; [exact H4 |]]]].
  exact (missing_cs_ish_stops_after_input_read cells cells_area cells_overlay "in.gpkg"
           "regiao_completa" "mun.gpkg" None "id_apresent" (AggSeq ["mean"]) None
           (mk_world pres_layer pres_layer) _ pres_layer H1 H2 H3 H4).
Defined.
